(** * mpl-svg: the normalisation passes of [svgplot.py]

    A shallow embedding of the string helpers, the style vocabulary
    ([StyleMap]) and the tree passes of class [SVG] ([slim], [uid],
    [set_none], [classify], [_iter]), with the properties the
    specification states about them. *)

From Stdlib Require Import NArith String Ascii.
From stdpp Require Import base option list sorting gmap.

Local Open Scope N_scope.
Local Open Scope list_scope.

(** ** Python strings

    A Python [str] is a sequence of Unicode code points; a code point is a
    natural number. *)

Definition char := N.
Definition str := list char.

(** [py "abc"] writes a literal whose characters are all below U+0100. *)
Definition py (s : string) : str := N_of_ascii <$> list_ascii_of_string s.

Definition underscore : char := 95.
Definition hyphen : char := 45.
Definition sharp_sign : char := 35.
Definition space : char := 32.
Definition semicolon : char := 59.
Definition colon : char := 58.
Definition newline : char := 10.

(** [filter(None, parts)] on a list of strings keeps the non-empty ones,
    the empty string being the only one that is false. *)
Definition truthy (s : str) : bool :=
  match s with [] => false | _ :: _ => true end.

Definition filter_None (parts : list str) : list str :=
  filter (fun s => truthy s = true) parts.

(** [sep.join(parts)] *)
Fixpoint join (sep : str) (parts : list str) : str :=
  match parts with
  | [] => []
  | [w] => w
  | w :: rest => w ++ sep ++ join sep rest
  end.

(** [string.replace(a, b)] for one-character [a] and [b]. *)
Definition replace (a b : char) (s : str) : str :=
  (fun c => if N.eqb c a then b else c) <$> s.

(** [string.rpartition(sep)] for a one-character separator: the part before
    the last occurrence, the separator, the part after it; when the
    separator does not occur, two empty strings and the string itself. *)
Fixpoint rpartition (sep : char) (s : str) : str * str * str :=
  match s with
  | [] => ([], [], [])
  | c :: tl =>
      match rpartition sep tl with
      | (b, [], a) =>
          if N.eqb c sep then ([], [sep], a) else ([], [], c :: a)
      | (b, m, a) => (c :: b, m, a)
      end
  end.

(** ** Whitespace

    [str.strip()] and the regular-expression class [\s] both use the
    interpreter's [Py_UNICODE_ISSPACE]. *)

Definition isspace (c : char) : bool :=
  (9 <=? c) && (c <=? 13) || (28 <=? c) && (c <=? 32)
  || (c =? 133) || (c =? 160) || (c =? 5760)
  || (8192 <=? c) && (c <=? 8202)
  || (c =? 8232) || (c =? 8233) || (c =? 8239) || (c =? 8287)
  || (c =? 12288).

Fixpoint lstrip (s : str) : str :=
  match s with
  | c :: tl => if isspace c then lstrip tl else s
  | [] => []
  end.

Fixpoint rstrip (s : str) : str :=
  match s with
  | [] => []
  | c :: tl =>
      match rstrip tl with
      | [] => if isspace c then [] else [c]
      | r => c :: r
      end
  end.

(** [string.strip()] *)
Definition strip (s : str) : str := rstrip (lstrip s).

(** [string.split(sep)] for a one-character separator. *)
Fixpoint split (sep : char) (s : str) : list str :=
  match s with
  | [] => [[]]
  | c :: tl =>
      if N.eqb c sep then [] :: split sep tl
      else match split sep tl with
           | w :: ws => (c :: w) :: ws
           | [] => [[c]]
           end
  end.

(** [string.startswith(prefix)] *)
Fixpoint startswith (prefix s : str) : bool :=
  match prefix, s with
  | [], _ => true
  | a :: prefix', c :: s' => N.eqb a c && startswith prefix' s'
  | _ :: _, [] => false
  end.

(** ** The regular expression of [slim]

    [re.sub(r"^\s+|\s+$|\s+(?=\s)", "", string)]: the string is scanned from
    the left; at each position the three alternatives are tried in order,
    each with a greedy [\s+] that gives characters back one at a time until
    what follows it matches; a match is deleted and the scan goes on behind
    it, a position without a match keeps its character. *)

(** The number of characters a greedy [\s+] takes at the head of [s]. *)
Fixpoint ws_run (s : str) : nat :=
  match s with
  | c :: tl => if isspace c then S (ws_run tl) else 0%nat
  | [] => 0%nat
  end.

(** Backtracking: [\s+] holding [k] characters tries what follows it with
    [k], [k-1], ..., [1] characters. *)
Fixpoint backtrack (k : nat) (follows : nat -> bool) : option nat :=
  match k with
  | O => None
  | S k' => if follows k then Some k else backtrack k' follows
  end.

(** [$] without MULTILINE: the end of the string, or just before a newline
    that ends the string. *)
Definition at_dollar (rest : str) : bool :=
  match rest with
  | [] => true
  | [c] => N.eqb c newline
  | _ => false
  end.

(** [(?=\s)] *)
Definition lookahead_space (rest : str) : bool :=
  match rest with
  | c :: _ => isspace c
  | [] => false
  end.

(** [^\s+] *)
Definition alt_leading (at_start : bool) (s : str) : option nat :=
  if at_start then backtrack (ws_run s) (fun _ => true) else None.

(** [\s+$] *)
Definition alt_trailing (s : str) : option nat :=
  backtrack (ws_run s) (fun j => at_dollar (drop j s)).

(** [\s+(?=\s)] *)
Definition alt_inner (s : str) : option nat :=
  backtrack (ws_run s) (fun j => lookahead_space (drop j s)).

(** The length of the match that starts at the head of [s], if any. *)
Definition match_here (at_start : bool) (s : str) : option nat :=
  match alt_leading at_start s with
  | Some n => Some n
  | None =>
      match alt_trailing s with
      | Some n => Some n
      | None => alt_inner s
      end
  end.

(** The scan of [re.sub] with the empty replacement; [skip] counts the
    characters of the current match that are still to be deleted. *)
Fixpoint sub_scan (skip : nat) (at_start : bool) (s : str) : str :=
  match s with
  | [] => []
  | c :: tl =>
      match skip with
      | S k => sub_scan k false tl
      | O =>
          match match_here at_start s with
          | Some (S j) => sub_scan j false tl
          | _ => c :: sub_scan 0 false tl
          end
      end
  end.

(** The lambda [_slim] of [SVG.slim]. *)
Definition _slim (string : str) : str := sub_scan 0 true string.

(** ** Exceptions *)

Inductive exn := KeyError | ValueError | AssertionError | AttributeError.

Inductive result (A : Type) :=
  | Ok (a : A)
  | Raise (e : exn).
Arguments Ok {A} a.
Arguments Raise {A} e.

Global Instance result_ret : MRet result := fun A a => Ok a.

Global Instance result_bind : MBind result := fun A B k r =>
  match r with
  | Ok a => k a
  | Raise e => Raise e
  end.

(** ** [StyleMap]

    The class-level dictionaries, in the order they are written. *)

Module StyleMap.

Definition table := list (str * str).

(** [d[key]] *)
Fixpoint getitem {V} (key : str) (d : list (str * V)) : result V :=
  match d with
  | [] => Raise KeyError
  | (k, v) :: rest => if decide (k = key) then Ok v else getitem key rest
  end.

Definition _global : table :=
  [ (py "stroke-linecap", py "butt");
    (py "stroke-linejoin", py "round") ].

Definition _text : table :=
  [ (py "stroke", py "none");
    (py "fill", py "#000000") ].

Definition stroke : table :=
  [ (py "#ffffff", py "primary");
    (py "#000000", py "primary-text");
    (py "#cccccc", py "secondary");
    (py "#1f77b4", py "blue");
    (py "#ff7f0e", py "orange");
    (py "#2ca02c", py "green");
    (py "#d62728", py "red");
    (py "#9467bd", py "purple");
    (py "#8c564b", py "brown");
    (py "#e377c2", py "pink");
    (py "#7f7f7f", py "grey");
    (py "#bcbd22", py "olive");
    (py "#17becf", py "cyan") ].

Definition fill : table :=
  [ (py "none", py "no-fill");
    (py "#ffffff", py "bg") ].

Definition stroke_width : table :=
  [ (py "0.8", py "thin");
    (py "1.5", py "thick") ].

Definition stroke_line_join : table :=
  [ (py "round", py "rounded");
    (py "miter", py "miter") ].

Definition stroke_line_cap : table :=
  [ (py "butt", py "butt");
    (py "square", py "square") ].

Definition font : table :=
  [ (py "10px 'sans-serif'", py "regular") ].

Definition text_anchor : table :=
  [ (py "start", py "left-align");
    (py "middle", py "center-align");
    (py "end", py "right-align") ].

Definition attributes : list (str * table) :=
  [ (py "fill", fill);
    (py "stroke", stroke);
    (py "stroke-width", stroke_width);
    (py "stroke-linejoin", stroke_line_join);
    (py "stroke-linecap", stroke_line_cap);
    (py "font", font);
    (py "text-anchor", text_anchor) ].

(** [parse]: the tuples the generator yields, in order. *)
Definition parse (string : str) : list (list str) :=
  match string with
  | [] => []
  | _ => (fun rule => strip <$> split colon rule) <$> split semicolon string
  end.

(** [cls.attributes[attr][value]] *)
Definition class_of (attr value : str) : result str :=
  group ← getitem attr attributes; getitem value group.

(** The loop over [_global.items()]. *)
Fixpoint global_classes (items : table) : result (list str) :=
  match items with
  | [] => Ok []
  | (attr, value) :: rest =>
      class_ ← class_of attr value;
      classes ← global_classes rest;
      Ok (class_ :: classes)
  end.

(** The loop [for attr, value in cls.parse(style)]: a tuple that does not
    have exactly two components cannot be unpacked. *)
Fixpoint parsed_classes (tuples : list (list str)) : result (list str) :=
  match tuples with
  | [] => Ok []
  | [attr; value] :: rest =>
      class_ ← class_of attr value;
      classes ← parsed_classes rest;
      Ok (class_ :: classes)
  | _ :: _ => Raise ValueError
  end.

(** The list [classes] when the second loop ends. *)
Definition class_list (style : str) : result (list str) :=
  globals ← global_classes _global;
  parsed ← parsed_classes (parse style);
  Ok (globals ++ parsed).

Definition classify (style : str) : result str :=
  classes ← class_list style;
  Ok (join [space] classes).

(** [f".{selector} {{ {attr}: {rule}; }}"] *)
Definition selector_rule (selector attr rule : str) : str :=
  py "." ++ selector ++ py " { " ++ attr ++ py ": " ++ rule ++ py "; }".

Definition tostring : str :=
  let ruleset :=
    '(attr, group) ← attributes;
    '(rule, selector) ← group;
    [selector_rule selector attr rule] in
  let text_rule :=
    join (py "; ") ((fun '(attr, rule) => attr ++ py ": " ++ rule) <$> _text) in
  let ruleset := ruleset ++ [py "." ++ py "text" ++ py " { " ++ text_rule ++ py "; }"] in
  join [] ruleset.

End StyleMap.

(** ** Elements

    An [xml.etree.ElementTree.Element] has a tag, the dictionary [attrib],
    [text], [tail] and its children.  An element of a document is named by
    the path of child indices that leads to it from the root, so that an
    update through one reference is seen through every other. *)

Record Label := mkLabel {
  tag : str;
  attrib : gmap str str;
  text : option str;
  tail : option str
}.

#[local] Set Warnings "-register-all".
Inductive Element := Node (label : Label) (children : list Element).

Definition label (el : Element) : Label :=
  match el with Node l _ => l end.

Definition children (el : Element) : list Element :=
  match el with Node _ cs => cs end.

Definition path := list nat.

Fixpoint get_at (p : path) (root : Element) : option Element :=
  match p with
  | [] => Some root
  | i :: p' => children root !! i ≫= get_at p'
  end.

Definition label_at (p : path) (root : Element) : option Label :=
  label <$> get_at p root.

(** Writing the fields of the element at [p] in place. *)
Fixpoint update_at (f : Label -> Label) (p : path) (root : Element) : Element :=
  match p, root with
  | [], Node l cs => Node (f l) cs
  | i :: p', Node l cs => Node l (alter (update_at f p') i cs)
  end.

(** [el.get(key)], [el.set(key, value)], [el.attrib.pop(key, default)],
    [el.keys()] *)
Definition el_get (el : Label) (key : str) : option str := attrib el !! key.

Definition el_set (el : Label) (key value : str) : Label :=
  {| tag := tag el; attrib := <[key := value]> (attrib el);
     text := text el; tail := tail el |}.

Definition el_pop (el : Label) (key default_ : str) : str * Label :=
  (default default_ (attrib el !! key),
   {| tag := tag el; attrib := delete key (attrib el);
      text := text el; tail := tail el |}).

Definition el_keys (el : Label) : list str := (map_to_list (attrib el)).*1.

(** ** Path expressions

    The three shapes of path the program hands to [iterfind]: a tag name, the
    wildcard ["*"], and the predicate ["[@key]"].  Tag names are compared as
    the namespace map of the document resolves them. *)

Inductive pattern :=
  | PTag (name : str)
  | PStar
  | PAttr (key : str).

(** [f 0 x0 ++ f 1 x1 ++ ...], counting from [i]. *)
Definition iconcat {A B} (f : nat -> A -> list B) : nat -> list A -> list B :=
  fix go i l :=
    match l with
    | [] => []
    | x :: l' => f i x ++ go (S i) l'
    end.

(** Does a child with this label pass the step [tag] of a path? *)
Definition child_matches (tag_ : pattern) (l : Label) : bool :=
  match tag_ with
  | PTag name => bool_decide (tag l = name)
  | PStar => true
  | PAttr _ => false
  end.

(** [el.iterfind(tag)], as paths from [el].  A tag or the wildcard selects
    among the children of [el]; a predicate is applied to the initial result
    list, which holds [el] itself. *)
Definition iterfind (tag_ : pattern) (el : Element) : list path :=
  match tag_ with
  | PAttr key =>
      match el_get (label el) key with
      | Some _ => [[]]
      | None => []
      end
  | _ =>
      iconcat (fun i c => if child_matches tag_ (label c) then [[i]] else [])
              0 (children el)
  end.

(** [Element.iter()] of the library: the element and everything below it,
    in document order. *)
Fixpoint Element_iter (el : Element) : list path :=
  match el with
  | Node _ cs => [] :: iconcat (fun i c => (i ::.) <$> Element_iter c) 0 cs
  end.

(** [el.find("defs/style")]: the first [style] child of a [defs] child. *)
Definition find_defs_style (el : Element) : option path :=
  head (p ← iterfind (PTag (py "defs")) el;
        match get_at p el with
        | Some c => (p ++.) <$> iterfind (PTag (py "style")) c
        | None => []
        end).

(** ** Loops over the elements of a traversal

    A loop over [Element.iter()] comes by every element of the tree; its
    body writes fields of the element it is given. *)

Definition for_each (body : Label -> Label) (els : list path) (root : Element)
  : Element :=
  foldl (fun root p => update_at body p root) root els.

(** [SVG._iter] is a generator: it comes by the elements in a fixed order
    and tests each one when the loop asks for the next element, on the tree
    as the bodies run so far have left it.  [visits] lists the elements in
    the order in which they are tested: with a predicate the element itself
    and then what is visited below each child, with a tag or the wildcard
    the children and then what is visited below each child. *)
Fixpoint visits (tag_ : pattern) (el : Element) : list path :=
  match el with
  | Node _ cs =>
      match tag_ with
      | PAttr _ => [[]]
      | _ => iconcat (fun i _ => [[i]]) 0 cs
      end ++ iconcat (fun i c => (i ::.) <$> visits tag_ c) 0 cs
  end.

(** The test an element passes to be yielded. *)
Definition passes (tag_ : pattern) (l : Label) : bool :=
  match tag_ with
  | PAttr key =>
      match el_get l key with
      | Some _ => true
      | None => false
      end
  | _ => child_matches tag_ l
  end.

(** Does the element at [p] pass the test? *)
Definition passes_at (tag_ : pattern) (root : Element) (p : path) : bool :=
  from_option (passes tag_) false (label_at p root).

(** [for el in self.iter(tag): body], with a body that writes fields of
    [el] or raises. *)
Fixpoint for_iter_from (tag_ : pattern) (body : Label -> result Label)
  (els : list path) (root : Element) : result Element :=
  match els with
  | [] => Ok root
  | p :: els' =>
      match label_at p root with
      | Some l =>
          if passes tag_ l then
            l' ← body l;
            for_iter_from tag_ body els' (update_at (fun _ => l') p root)
          else for_iter_from tag_ body els' root
      | None => for_iter_from tag_ body els' root
      end
  end.

Definition for_iter (tag_ : pattern) (body : Label -> result Label)
  (root : Element) : result Element :=
  for_iter_from tag_ body (visits tag_ root) root.

(** ** Sorting strings

    [sorted] on strings orders them by code points, the shorter of two
    strings first when it is a prefix of the other. *)

Fixpoint str_leb (a b : str) : bool :=
  match a, b with
  | [], _ => true
  | _ :: _, [] => false
  | x :: a', y :: b' => N.ltb x y || N.eqb x y && str_leb a' b'
  end.

Definition str_le (a b : str) : Prop := str_leb a b = true.

Global Instance str_le_dec : RelDecision str_le.
Proof. intros a b. unfold str_le. apply _. Defined.

Definition sorted (l : list str) : list str := merge_sort str_le l.

(** ** [SVG] *)

Module SVG.

(** The inner function [insert] of [uid]. *)

Definition insert (string ins : str) : str :=
  let string := replace underscore hyphen string in
  let '(prefix, sharp, string) := rpartition sharp_sign string in
  let parts := [prefix; sharp] in
  let '(before, dash, after) := rpartition hyphen string in
  let parts := parts ++ [before; dash; ins; [hyphen]; after] in
  join [] (filter_None parts).

(** [slim]: the body of the first loop, *)
Definition slim_text (c : Label) : Label :=
  {| tag := tag c; attrib := attrib c;
     text := match text c with Some t => Some (strip t) | None => None end;
     tail := None |}.

(** and of the second: [for att in c.keys(): c.set(att, _slim(c.get(att)))]. *)
Definition slim_attrib (c : Label) : Label :=
  foldl (fun c att =>
           match el_get c att with
           | Some v => el_set c att (_slim v)
           | None => c
           end) c (el_keys c).

Definition slim (root : Element) : Element :=
  let root := for_each slim_text (Element_iter root) root in
  for_each slim_attrib (Element_iter root) root.

Definition set_none (el : Label) (attr value : str) : Label :=
  let attrs := split space (default [] (el_get el attr)) ++ split space value in
  let attrs := sorted (elements (list_to_set attrs : gset str)) in
  let new_value := join [space] (filter_None attrs) in
  if truthy new_value then el_set el attr new_value else el.

(** [_iter], as the list of what it yields while the tree is not written
    to: what [el.iterfind(tag)] yields, then what [_iter] yields for each
    child in turn. *)
Fixpoint _iter (tag_ : pattern) (el : Element) : list path :=
  iterfind tag_ el ++
  match el with
  | Node _ cs => iconcat (fun i c => (i ::.) <$> _iter tag_ c) 0 cs
  end.

Definition iter (tag_ : pattern) (root : Element) : list path :=
  _iter tag_ root.

(** [self.style] *)
Definition style (root : Element) : option path := find_defs_style root.

(** [uid]: the body of the loop over the elements with attribute [key];
    [insert] applied to [None] raises. *)
Definition uid_body (key id : str) (el : Label) : result Label :=
  match el_get el key with
  | Some v => Ok (el_set el key (insert v id))
  | None => Raise AttributeError
  end.

Definition uid (id : str) (root : Element) : result Element :=
  root ← for_iter (PAttr (py "id")) (uid_body (py "id") id) root;
  root ← for_iter (PAttr (py "href")) (uid_body (py "href") id) root;
  for_iter (PAttr (py "clip-path")) (uid_body (py "clip-path") id) root.

(** [classify]: the body of the loops over [path], [use] and [text]
    elements, *)
Definition classify_style (el : Label) : result Label :=
  let '(style_, el) := el_pop el (py "style") [] in
  classes ← StyleMap.classify style_;
  Ok (set_none el (py "class") classes).

(** of the loop over the elements with an [id] (its [print] is left out), *)
Definition classify_font (el : Label) : result Label :=
  match el_get el (py "id") with
  | Some v =>
      if startswith (py "DejaVuSans") v
      then Ok (set_none el (py "class") (py "text"))
      else Ok el
  | None => Raise AttributeError
  end.

(** and the two statements of the loop over [text] elements. *)
Definition classify_text (el : Label) : result Label :=
  el ← classify_style el;
  Ok (set_none el (py "class") (py "text")).

Definition set_text (value : str) (el : Label) : Label :=
  {| tag := tag el; attrib := attrib el; text := Some value; tail := tail el |}.

Definition classify (root : Element) : result Element :=
  root ← for_iter (PTag (py "path")) classify_style root;
  root ← for_iter (PTag (py "use")) classify_style root;
  root ← for_iter (PAttr (py "id")) classify_font root;
  root ← for_iter (PTag (py "text")) classify_text root;
  if decide (length (iter (PAttr (py "style")) root) = 0%nat) then
    match style root with
    | Some p => Ok (update_at (set_text StyleMap.tostring) p root)
    | None => Raise AttributeError
    end
  else Raise AssertionError.

End SVG.

(** ** The specification's wording, for comparison *)

(** The rewrite as the specification words it: after the prefix up to the
    last ['#'], the segments [before], unique id and [after] joined by
    hyphens, an empty segment left out together with its separator. *)
Definition insert_as_specified (s u : str) : str :=
  let s := replace underscore hyphen s in
  let '(prefix, sharp, rest) := rpartition sharp_sign s in
  let '(before, _, after) := rpartition hyphen rest in
  prefix ++ sharp ++ join [hyphen] (filter_None [before; u; after]).

(** Slimming an attribute value as the specification words it: every run of
    whitespace collapsed to a single space, then leading and trailing
    whitespace trimmed. *)
Fixpoint collapse_runs (s : str) : str :=
  match s with
  | [] => []
  | c :: tl =>
      if isspace c
      then if lookahead_space tl then collapse_runs tl
           else space :: collapse_runs tl
      else c :: collapse_runs tl
  end.

Definition slim_as_specified (s : str) : str := strip (collapse_runs s).

(** A whitespace character read as a space. *)
Definition as_space (c : char) : char := if isspace c then space else c.

(** No whitespace at either end. *)
Definition trimmed (s : str) : Prop :=
  lookahead_space s = false ∧ lookahead_space (reverse s) = false.

(** [findAll] as the specification words it: the elements below the root
    that pass the tag step, in document order (depth first, an element
    before its children). *)
Definition below_root_matching (tag_ : pattern) (root : Element) (p : path)
  : bool :=
  match p, label_at p root with
  | _ :: _, Some l => child_matches tag_ l
  | _, _ => false
  end.

Definition findAll_as_specified (tag_ : pattern) (root : Element) : list path :=
  filter (fun p => below_root_matching tag_ root p = true) (Element_iter root).

(** A tag pattern: a tag name or the wildcard, not a predicate. *)
Definition is_tag (tag_ : pattern) : Prop :=
  match tag_ with
  | PAttr _ => False
  | _ => True
  end.

(** ** Example documents *)

Definition attr (key value : string) : str * str := (py key, py value).

Definition element (tag_ : string) (attrs : list (str * str)) : Label :=
  {| tag := py tag_; attrib := list_to_map attrs; text := None; tail := None |}.

(** A figure with one styled path in a group, and the style sheet element. *)
Definition figure : Element :=
  Node (element "svg" [])
    [ Node (element "defs" []) [ Node (element "style" []) [] ];
      Node (element "g" [attr "id" "figure_1"])
        [ Node (element "path"
                  [attr "style" "stroke:#1f77b4;stroke-width:0.8";
                   attr "id" "line1";
                   attr "clip-path" "url(#p1)"]) [];
          Node (element "use" [attr "href" "#m1"]) [] ] ].

Definition classified_figure : Element :=
  match SVG.classify figure with
  | Ok root => root
  | Raise _ => figure
  end.

(** Two groups, the first with a child of its own. *)
Definition nested : Element :=
  Node (element "svg" [])
    [ Node (element "g" []) [ Node (element "path" []) [] ];
      Node (element "g" []) [] ].

(** An element whose text is blank and whose attribute holds a tab. *)
Definition blank : Element :=
  Node {| tag := py "text"; attrib := {[ py "x" := [97; 9; 98] ]};
          text := Some (py "  "); tail := Some (py " ") |} [].

(** ** Auxiliary definitions of the proofs *)

(** What the scan of [_slim] leaves behind its first match: a whitespace
    character stays when a character that is not whitespace follows it. *)
Fixpoint squeeze (s : str) : str :=
  match s with
  | [] => []
  | c :: tl =>
      if isspace c
      then match tl with
           | d :: _ => if isspace d then squeeze tl else c :: squeeze tl
           | [] => []
           end
      else c :: squeeze tl
  end.

(** The same change made to every element of a tree. *)
Fixpoint tmap (f : Label -> Label) (el : Element) : Element :=
  match el with
  | Node l cs => Node (f l) (tmap f <$> cs)
  end.

(** What a loop of [uid] does to one element, when nothing is raised. *)
Definition rewrite_attr (key id : str) (el : Label) : Label :=
  match el_get el key with
  | Some v => el_set el key (SVG.insert v id)
  | None => el
  end.

(** What a traversal with [_iter] selects: with a predicate, the elements
    of the tree, its root included, that have the attribute; with a tag or
    the wildcard, the elements below the root that pass the step. *)
Definition selected (tag_ : pattern) (root : Element) (p : path) : Prop :=
  match tag_ with
  | PAttr key => ∃ l, label_at p root = Some l ∧ is_Some (attrib l !! key)
  | _ => p ≠ [] ∧ ∃ l, label_at p root = Some l ∧ child_matches tag_ l = true
  end.

(** What [slim] makes of one element. *)
Definition slimmed (c : Label) : Label :=
  {| tag := tag c; attrib := _slim <$> attrib c;
     text := strip <$> text c; tail := None |}.

(** ** Auxiliary definitions of the further properties *)

Definition nonspace (c : char) : Prop := isspace c = false.

(** A tuple of [parse] that the loop of [StyleMap.classify] turns into the
    class [c]: a property and a value that the vocabulary maps to [c]. *)
Definition known_pair (t : list str) (c : str) : Prop :=
  ∃ a v, t = [a; v] ∧ StyleMap.class_of a v = Ok c.

(** A declaration as a style string writes it, and a list of them. *)
Definition declaration (d : str * str) : str := d.1 ++ [colon] ++ d.2.

Definition style_of (decls : list (str * str)) : str :=
  join [semicolon] (declaration <$> decls).

(** The vocabulary as one list: property, value and class. *)
Definition vocabulary : list (str * str * str) :=
  '(attr_, group) ← StyleMap.attributes;
  '(value, class_) ← group;
  [(attr_, value, class_)].

(** The tokens [set_none] merges: the pieces of the present value of the
    attribute and of the new value. *)
Definition pieces (el : Label) (attr_ value : str) : list str :=
  split space (default [] (el_get el attr_)) ++ split space value.

(** The merged tokens, as [set_none] computes them. *)
Definition merged (el : Label) (attr_ value : str) : list str :=
  filter_None (sorted (elements (list_to_set (pieces el attr_ value) : gset str))).

(** The value of an attribute of the element at a path, if there is such an
    element and it has the attribute. *)
Definition attr_at (key : str) (root : Element) (p : path) : option str :=
  label_at p root ≫= fun l => attrib l !! key.

(** The tokens of the [class] attribute of an element. *)
Definition classes (el : Label) : list str :=
  split space (default [] (el_get el (py "class"))).

(** What [classify] leaves of an element: the tag, the tail and every
    attribute but [class] and [style]. *)
Definition classify_keeps (el el' : Label) : Prop :=
  tag el' = tag el ∧ tail el' = tail el ∧
  ∀ key, key ≠ py "class" → key ≠ py "style" →
         attrib el' !! key = attrib el !! key.

(** The elements whose inline style [classify] takes. *)
Definition styled_tags : list str := [py "path"; py "use"; py "text"].

(** What every run of a loop body of [classify] keeps of an element, and
    that the tokens of its [class] attribute only grow. *)
Definition classify_step (el el' : Label) : Prop :=
  classify_keeps el el' ∧ text el' = text el ∧
  ∀ t, t ≠ [] → t ∈ classes el → t ∈ classes el'.

(** An inline style outside the elements whose style [classify] takes
    stays. *)
Definition style_stays (el el' : Label) : Prop :=
  tag el' = tag el ∧
  (tag el ∉ styled_tags → attrib el' !! py "style" = attrib el !! py "style").

(** A document whose inline style sits on a group. *)
Definition styled_group : Element :=
  Node (element "svg" [])
    [ Node (element "defs" []) [ Node (element "style" []) [] ];
      Node (element "g" [attr "style" "stroke:#1f77b4"]) [] ].

(** A document whose references point at identifiers it declares: a clip
    path and a marker in [defs], used by a path and a [use] element. *)
Definition linked : Element :=
  Node (element "svg" [])
    [ Node (element "defs" [])
        [ Node (element "clipPath" [attr "id" "p1"]) [];
          Node (element "path" [attr "id" "m_1"]) [] ];
      Node (element "g" [attr "id" "figure_1"])
        [ Node (element "path" [attr "clip-path" "url(#p1)"]) [];
          Node (element "use" [attr "href" "#m_1"]) [] ] ].

(** * Properties *)

(** ** Strings *)

Lemma join_nil_concat (parts : list str) : join [] parts = concat parts.
Proof.
  induction parts as [|w [|w' rest] IH]; simpl in *.
  - reflexivity.
  - by rewrite app_nil_r.
  - by rewrite IH.
Qed.

Lemma concat_filter_None (parts : list str) :
  concat (filter_None parts) = concat parts.
Proof.
  unfold filter_None. induction parts as [|[|c w] rest IH]; [done|..].
  - by rewrite filter_cons_False by done.
  - rewrite filter_cons_True by done. simpl. by rewrite IH.
Qed.

Lemma replace_app a b (s t : str) :
  replace a b (s ++ t) = replace a b s ++ replace a b t.
Proof. unfold replace. apply fmap_app. Qed.

Lemma replace_notin a b x (s : str) :
  x ≠ b → x ∉ s → x ∉ replace a b s.
Proof.
  intros Hb Hs. unfold replace. rewrite list_elem_of_fmap.
  intros (c & Hc & Hin). destruct (N.eqb_spec c a); subst; [done|].
  by apply Hs.
Qed.

Section rpartition.
Variable sep : char.

Lemma rpartition_notin (s : str) :
  sep ∉ s → rpartition sep s = ([], [], s).
Proof.
  induction s as [|c tl IH]; intros Hs; simpl; [done|].
  apply not_elem_of_cons in Hs as [Hc Htl].
  rewrite (IH Htl). destruct (N.eqb_spec c sep) as [->|?]; [done|done].
Qed.

Lemma rpartition_in (b a : str) :
  sep ∉ a → rpartition sep (b ++ sep :: a) = (b, [sep], a).
Proof.
  intros Ha. induction b as [|c b IH]; simpl.
  - rewrite (rpartition_notin a Ha). by rewrite N.eqb_refl.
  - by rewrite IH.
Qed.

(** A string in which [sep] occurs splits at the last occurrence. *)
Lemma last_occurrence (s : str) :
  sep ∈ s → ∃ b a, s = b ++ sep :: a ∧ sep ∉ a.
Proof.
  induction s as [|c tl IH]; intros Hs.
  - by apply elem_of_nil in Hs.
  - destruct (decide (sep ∈ tl)) as [Htl|Htl].
    + destruct (IH Htl) as (b & a & -> & Ha). by exists (c :: b), a.
    + apply elem_of_cons in Hs as [->|?]; [|done]. by exists [], tl.
Qed.
End rpartition.

(** ** [insert] *)

(** The result of [insert] is the concatenation of its seven parts; the
    filter removes nothing that a concatenation would show. *)
Lemma insert_parts (s u : str) :
  SVG.insert s u =
    let '(prefix, sharp, rest) := rpartition sharp_sign (replace underscore hyphen s) in
    let '(before, dash, after) := rpartition hyphen rest in
    prefix ++ sharp ++ before ++ dash ++ u ++ [hyphen] ++ after.
Proof.
  unfold SVG.insert.
  destruct (rpartition sharp_sign _) as [[prefix sharp] rest].
  destruct (rpartition hyphen rest) as [[before dash] after].
  rewrite join_nil_concat, concat_filter_None. simpl.
  by rewrite app_nil_r.
Qed.

(** [insert] puts the unique id, followed by a hyphen, between a part of the
    string that depends on the string only and the rest of it. *)
Lemma insert_split (s : str) :
  ∃ front back, ∀ u, SVG.insert s u = front ++ u ++ back.
Proof.
  destruct (rpartition sharp_sign (replace underscore hyphen s))
    as [[prefix sharp] rest] eqn:E1.
  destruct (rpartition hyphen rest) as [[before dash] after] eqn:E2.
  exists (prefix ++ sharp ++ before ++ dash), ([hyphen] ++ after).
  intros u. rewrite insert_parts, E1, E2. by rewrite <- !app_assoc.
Qed.

Lemma insert_inj (s u1 u2 : str) :
  SVG.insert s u1 = SVG.insert s u2 → u1 = u2.
Proof.
  destruct (insert_split s) as (front & back & H).
  rewrite !H. intros E. apply app_inv_head in E. by apply app_inv_tail in E.
Qed.

Lemma insert_no_sharp (s u : str) :
  sharp_sign ∉ s →
  SVG.insert s u =
    let '(before, dash, after) := rpartition hyphen (replace underscore hyphen s) in
    before ++ dash ++ u ++ [hyphen] ++ after.
Proof.
  intros Hs. rewrite insert_parts.
  rewrite (rpartition_notin sharp_sign); [done|].
  by apply replace_notin.
Qed.

Lemma insert_after_sharp (front s tail_ u : str) :
  replace underscore hyphen front = front →
  replace underscore hyphen tail_ = tail_ →
  hyphen ∉ tail_ → sharp_sign ∉ tail_ → sharp_sign ∉ s →
  SVG.insert (front ++ [sharp_sign] ++ s ++ tail_) u =
    front ++ [sharp_sign] ++ SVG.insert s u ++ tail_.
Proof.
  intros Hfront Htail Hh Hsh Hs.
  assert (Hs' : sharp_sign ∉ replace underscore hyphen s)
    by by apply replace_notin.
  rewrite (insert_no_sharp s u Hs), insert_parts.
  rewrite !replace_app, Hfront, Htail. simpl.
  rewrite rpartition_in by (rewrite elem_of_app; tauto).
  set (s' := replace underscore hyphen s) in *.
  destruct (decide (hyphen ∈ s')) as [Hin|Hnot].
  - destruct (last_occurrence hyphen s' Hin) as (b & a & -> & Ha).
    rewrite <- app_assoc. simpl.
    rewrite !rpartition_in by (try rewrite elem_of_app; tauto).
    by rewrite <- !app_assoc.
  - rewrite !rpartition_notin by (try rewrite elem_of_app; tauto).
    by rewrite <- !app_assoc.
Qed.

Lemma rpartition_parts sep (s b m a : str) :
  rpartition sep s = (b, m, a) → s = b ++ m ++ a ∧ sep ∉ a.
Proof.
  destruct (decide (sep ∈ s)) as [Hin|Hnot].
  - destruct (last_occurrence sep s Hin) as (b' & a' & -> & Ha).
    rewrite rpartition_in by done. by intros [= <- <- <-].
  - rewrite rpartition_notin by done. by intros [= <- <- <-].
Qed.

(** The unique id and a hyphen are put in front of the part of the string
    that follows its last hyphen, or in front of the string when it has no
    hyphen; what is in front of them has no effect on where. *)
Lemma insert_decompose (s : str) :
  ∃ front back,
    replace underscore hyphen s = front ++ back ∧ (hyphen ∉ back) ∧
    ∀ u, SVG.insert s u = front ++ u ++ [hyphen] ++ back.
Proof.
  destruct (rpartition sharp_sign (replace underscore hyphen s))
    as [[prefix sharp] rest] eqn:E1.
  destruct (rpartition hyphen rest) as [[before dash] after] eqn:E2.
  destruct (rpartition_parts _ _ _ _ _ E1) as [Hs _].
  destruct (rpartition_parts _ _ _ _ _ E2) as [Hrest Hafter].
  exists (prefix ++ sharp ++ before ++ dash), after. split_and!.
  - rewrite Hs, Hrest. by rewrite <- !app_assoc.
  - done.
  - intros u. rewrite insert_parts, E1, E2. by rewrite <- !app_assoc.
Qed.

Lemma length_replace a b (s : str) : length (replace a b s) = length s.
Proof. unfold replace. apply length_fmap. Qed.

(** The result of [insert] is never the string it is given: it is longer. *)
Lemma insert_changes (s u : str) : SVG.insert s u ≠ s.
Proof.
  destruct (insert_decompose s) as (front & back & Hs & _ & H).
  intros E. apply (f_equal length) in E.
  rewrite H, <- (length_replace underscore hyphen s), Hs in E.
  rewrite !length_app in E. simpl in E. lia.
Qed.

(** ** Whitespace *)

Lemma isspace_space : isspace space = true.
Proof. reflexivity. Qed.

Lemma isspace_newline : isspace newline = true.
Proof. reflexivity. Qed.

Lemma lstrip_fixed (s : str) : lookahead_space s = false → lstrip s = s.
Proof. destruct s as [|c tl]; simpl; [done|]. by intros ->. Qed.

Lemma lstrip_head (s : str) : lookahead_space (lstrip s) = false.
Proof.
  induction s as [|c tl IH]; simpl; [done|].
  destruct (isspace c) eqn:E; [done|]. simpl. by rewrite E.
Qed.

Lemma lstrip_split (s : str) :
  ∃ a, s = a ++ lstrip s ∧ Forall (λ c, isspace c = true) a.
Proof.
  induction s as [|c tl (a & IH & Ha)]; simpl.
  - by exists [].
  - destruct (isspace c) eqn:E.
    + exists (c :: a). split; [simpl; by rewrite <- IH|by constructor].
    + by exists [].
Qed.

Lemma rstrip_cons_nonspace c (s : str) :
  isspace c = false → rstrip (c :: s) = c :: rstrip s.
Proof. intros E. simpl. rewrite E. by destruct (rstrip s). Qed.

Lemma rstrip_cons_ne c (s : str) :
  rstrip s ≠ [] → rstrip (c :: s) = c :: rstrip s.
Proof. intros E. simpl. by destruct (rstrip s). Qed.

Lemma rstrip_head_ne c (s : str) :
  isspace c = false → rstrip (c :: s) ≠ [].
Proof. intros E. by rewrite rstrip_cons_nonspace. Qed.

Lemma rstrip_split (s : str) :
  ∃ b, s = rstrip s ++ b ∧ Forall (λ c, isspace c = true) b.
Proof.
  induction s as [|c tl (b & IH & Hb)]; simpl.
  - by exists [].
  - destruct (rstrip tl) as [|d r] eqn:E.
    + destruct (isspace c) eqn:Ec.
      * exists (c :: b). simpl in IH. subst tl. split; [done|by constructor].
      * exists b. simpl in IH. by subst tl.
    + exists b. split; [|done]. simpl in *. congruence.
Qed.

Lemma lookahead_reverse_snoc (s : str) c :
  lookahead_space (reverse (s ++ [c])) = isspace c.
Proof. by rewrite reverse_app. Qed.

Lemma rstrip_last (s : str) : lookahead_space (reverse (rstrip s)) = false.
Proof.
  induction s as [|c tl IH]; simpl; [done|].
  destruct (rstrip tl) as [|d r] eqn:E.
  - destruct (isspace c) eqn:Ec; [done|]. simpl. by rewrite Ec.
  - rewrite !reverse_cons. rewrite reverse_cons in IH.
    destruct (reverse r ++ [d]) eqn:E'; [|by simpl in *].
    by apply app_eq_nil in E' as [_ ?].
Qed.

Lemma rstrip_fixed (s : str) :
  lookahead_space (reverse s) = false → rstrip s = s.
Proof.
  induction s as [|c tl IH]; [done|].
  rewrite reverse_cons. intros H.
  destruct tl as [|d r].
  - simpl in *. by rewrite H.
  - rewrite rstrip_cons_ne; rewrite IH; try done.
    all: rewrite ?reverse_cons in *;
      destruct (reverse r ++ [d]) eqn:E'; [by apply app_eq_nil in E' as [_ ?]|by simpl in *].
Qed.

Lemma rstrip_head (s : str) :
  lookahead_space s = false → lookahead_space (rstrip s) = false.
Proof.
  destruct s as [|c tl]; [done|]. simpl. intros E.
  rewrite E. destruct (rstrip tl); simpl; by rewrite E.
Qed.

Lemma strip_trimmed (s : str) : trimmed (strip s).
Proof.
  split; unfold strip.
  - apply rstrip_head, lstrip_head.
  - apply rstrip_last.
Qed.

Lemma strip_fixed (s : str) : trimmed s → strip s = s.
Proof.
  intros [H1 H2]. unfold strip. rewrite (lstrip_fixed s H1). by apply rstrip_fixed.
Qed.

Lemma strip_idemp (s : str) : strip (strip s) = strip s.
Proof. apply strip_fixed, strip_trimmed. Qed.

(** [strip] removes a run of whitespace at each end and nothing else. *)
Lemma strip_split (s : str) :
  ∃ a b, s = a ++ strip s ++ b ∧
         Forall (λ c, isspace c = true) a ∧ Forall (λ c, isspace c = true) b.
Proof.
  destruct (lstrip_split s) as (a & Ha & Fa).
  destruct (rstrip_split (lstrip s)) as (b & Hb & Fb).
  exists a, b. unfold strip. by rewrite <- Hb, <- Ha.
Qed.

(** ** The scan of [_slim] *)

Lemma sub_scan_skip j b (s : str) :
  sub_scan (S j) b s = sub_scan 0 false (drop (S j) s).
Proof.
  revert b s. induction j as [|j IH]; intros b [|c tl]; simpl; done.
Qed.

Lemma sub_scan_drop j (s : str) :
  sub_scan j false s = sub_scan 0 false (drop j s).
Proof. destruct j; [by rewrite drop_0|apply sub_scan_skip]. Qed.

Lemma lstrip_ws_run (s : str) : lstrip s = drop (ws_run s) s.
Proof.
  induction s as [|c tl IH]; simpl; [done|].
  by destruct (isspace c).
Qed.

Lemma lstrip_drop j (s : str) :
  (j ≤ ws_run s)%nat → lstrip (drop j s) = lstrip s.
Proof.
  revert s. induction j as [|j IH]; intros s Hj; [done|].
  destruct s as [|c tl]; simpl in *; [done|].
  destruct (isspace c); [|lia]. apply IH. lia.
Qed.

Lemma lookahead_drop j (s : str) :
  (j < ws_run s)%nat → lookahead_space (drop j s) = true.
Proof.
  revert s. induction j as [|j IH]; intros [|c tl] Hj; simpl in *; try lia.
  - by destruct (isspace c); [|lia].
  - destruct (isspace c); [|lia]. apply IH. lia.
Qed.

Lemma at_dollar_nonspace (s : str) : lstrip s ≠ [] → at_dollar s = false.
Proof.
  destruct s as [|c [|d r]]; simpl; try done.
  destruct (isspace c) eqn:E; [done|]. intros _.
  destruct (N.eqb_spec c newline) as [->|]; [|done].
  by rewrite isspace_newline in E.
Qed.

Lemma backtrack_none k follows :
  (∀ j, (1 ≤ j ≤ k)%nat → follows j = false) → backtrack k follows = None.
Proof.
  induction k as [|k IH]; intros H; simpl; [done|].
  rewrite H by lia. apply IH. intros j Hj. apply H. lia.
Qed.

Lemma ws_run_0 (s : str) : lookahead_space s = false → ws_run s = 0%nat.
Proof. destruct s as [|c tl]; simpl; [done|]. by intros ->. Qed.

Lemma match_here_nonspace (s : str) b :
  lookahead_space s = false → match_here b s = None.
Proof.
  intros H. unfold match_here, alt_leading, alt_trailing, alt_inner.
  rewrite (ws_run_0 s H). simpl. by destruct b.
Qed.

(** Inside the string, a run of whitespace that reaches the end is matched
    as a whole by [\s+$]. *)
Lemma match_here_trailing c (tl : str) :
  isspace c = true → lstrip tl = [] →
  match_here false (c :: tl) = Some (S (ws_run tl)).
Proof.
  intros Hc Htl. unfold match_here, alt_leading, alt_trailing. simpl.
  rewrite Hc. simpl. rewrite <- lstrip_ws_run, Htl. done.
Qed.

(** A run that is followed by another character is matched up to its last
    character by [\s+(?=\s)], when it has more than one. *)
Lemma match_here_inner c (tl : str) :
  isspace c = true → lstrip tl ≠ [] →
  match_here false (c :: tl) =
    match ws_run tl with O => None | S k => Some (S k) end.
Proof.
  intros Hc Htl. unfold match_here, alt_leading, alt_trailing, alt_inner.
  simpl. rewrite Hc.
  rewrite backtrack_none.
  2:{ intros j Hj. apply at_dollar_nonspace.
      rewrite (lstrip_drop j (c :: tl)); simpl; rewrite Hc; [done|lia]. }
  simpl. rewrite (lstrip_ws_run tl) in Htl.
  assert (lookahead_space (drop (ws_run tl) tl) = false) as ->.
  { rewrite <- lstrip_ws_run. apply lstrip_head. }
  destruct (ws_run tl) as [|k] eqn:Ek; [done|].
  simpl. by rewrite lookahead_drop by lia.
Qed.

Lemma squeeze_all_space (s : str) : lstrip s = [] → squeeze s = [].
Proof.
  induction s as [|c tl IH]; simpl; [done|].
  destruct (isspace c) eqn:Hc; [|done]. intros Htl.
  destruct tl as [|d r]; [done|].
  specialize (IH Htl). simpl in Htl. by destruct (isspace d).
Qed.

Lemma squeeze_drop j (s : str) :
  (j < ws_run s)%nat → squeeze (drop j s) = squeeze s.
Proof.
  revert s. induction j as [|j IH]; intros s Hj; [done|].
  destruct s as [|c tl]; [done|]. simpl in Hj.
  destruct (isspace c) eqn:Hc; [|lia].
  change (drop (S j) (c :: tl)) with (drop j tl).
  rewrite IH by lia. simpl. rewrite Hc.
  destruct tl as [|d r]; simpl in *; [lia|].
  by destruct (isspace d); [|lia].
Qed.

Lemma sub_scan_squeeze (s : str) : sub_scan 0 false s = squeeze s.
Proof.
  remember (length s) as n eqn:Hn.
  revert s Hn. induction n as [n IH] using lt_wf_ind. intros [|c tl] Hn; [done|].
  simpl in Hn. cbn [sub_scan].
  destruct (isspace c) eqn:Hc.
  - destruct (decide (lstrip tl = [])) as [Htl|Htl].
    + rewrite match_here_trailing by done.
      rewrite sub_scan_drop, <- lstrip_ws_run, Htl.
      by rewrite (squeeze_all_space (c :: tl)) by (simpl; by rewrite Hc).
    + rewrite match_here_inner by done.
      destruct (ws_run tl) as [|k] eqn:Ek.
      * rewrite (IH (length tl)) by (done || lia).
        simpl. rewrite Hc. destruct tl as [|d r]; [done|].
        simpl in Ek. by destruct (isspace d).
      * rewrite sub_scan_drop.
        rewrite (IH (length (drop k tl))); [|rewrite length_drop; lia|done].
        rewrite squeeze_drop by lia.
        simpl. rewrite Hc. destruct tl as [|d r]; [done|].
        simpl in Ek. by destruct (isspace d).
  - rewrite match_here_nonspace by (simpl; done).
    rewrite (IH (length tl)) by (done || lia). simpl. by rewrite Hc.
Qed.

(** The regular expression deletes the leading whitespace, and of every
    later run of whitespace all but a last character that is followed by
    something else. *)
Lemma _slim_squeeze (s : str) : _slim s = squeeze (lstrip s).
Proof.
  unfold _slim. destruct s as [|c tl]; [done|]. cbn [sub_scan lstrip].
  destruct (isspace c) eqn:Hc.
  - unfold match_here, alt_leading. simpl. rewrite Hc. simpl.
    by rewrite sub_scan_drop, sub_scan_squeeze, <- lstrip_ws_run.
  - rewrite match_here_nonspace by (simpl; done).
    rewrite sub_scan_squeeze. simpl. by rewrite Hc.
Qed.

Lemma squeeze_idemp (s : str) : squeeze (squeeze s) = squeeze s.
Proof.
  induction s as [|c tl IH]; [done|]. simpl.
  destruct (isspace c) eqn:Hc.
  - destruct tl as [|d r]; [done|].
    destruct (isspace d) eqn:Hd; [done|].
    simpl in *. rewrite Hd in *. simpl. rewrite Hc, Hd.
    simpl in IH. rewrite Hd in IH. congruence.
  - simpl. rewrite Hc. by rewrite IH.
Qed.

Lemma squeeze_head (s : str) :
  lookahead_space s = false → lookahead_space (squeeze s) = false.
Proof. destruct s as [|c tl]; simpl; [done|]. intros E. rewrite E. simpl. done. Qed.

Lemma _slim_idemp (s : str) : _slim (_slim s) = _slim s.
Proof.
  rewrite !_slim_squeeze.
  rewrite (lstrip_fixed (squeeze _)) by apply squeeze_head, lstrip_head.
  apply squeeze_idemp.
Qed.

Lemma isspace_as_space c : isspace (as_space c) = isspace c.
Proof. unfold as_space. by destruct (isspace c) eqn:E. Qed.

Lemma lookahead_fmap_as_space (s : str) :
  lookahead_space (as_space <$> s) = lookahead_space s.
Proof. destruct s; simpl; [done|apply isspace_as_space]. Qed.

Lemma collapse_runs_head (s : str) :
  lookahead_space s = false → lookahead_space (collapse_runs s) = false.
Proof. destruct s as [|c tl]; simpl; [done|]. intros E. rewrite E. simpl. done. Qed.

Lemma lstrip_collapse_runs (s : str) :
  lstrip (collapse_runs s) = collapse_runs (lstrip s).
Proof.
  induction s as [|c tl IH]; [done|]. simpl.
  destruct (isspace c) eqn:Hc.
  - destruct (lookahead_space tl) eqn:Htl; [done|].
    simpl. rewrite (lstrip_fixed tl Htl).
    apply lstrip_fixed, collapse_runs_head, Htl.
  - simpl. by rewrite Hc.
Qed.

Lemma rstrip_collapse_runs (s : str) :
  rstrip (collapse_runs s) = as_space <$> squeeze s.
Proof.
  induction s as [|c tl IH]; [done|]. simpl.
  destruct (isspace c) eqn:Hc.
  - destruct tl as [|d r]; [done|]. simpl lookahead_space.
    destruct (isspace d) eqn:Hd; [done|].
    rewrite rstrip_cons_ne.
    + rewrite IH. rewrite fmap_cons. unfold as_space at 2. by rewrite Hc.
    + simpl. rewrite Hd. by apply rstrip_head_ne.
  - rewrite rstrip_cons_nonspace by done. rewrite IH, fmap_cons.
    unfold as_space at 2. by rewrite Hc.
Qed.

(** Up to which whitespace character stands for a collapsed run, [_slim]
    computes what the specification describes. *)
Lemma _slim_as_specified (s : str) :
  as_space <$> _slim s = slim_as_specified s.
Proof.
  unfold slim_as_specified, strip.
  by rewrite lstrip_collapse_runs, rstrip_collapse_runs, _slim_squeeze.
Qed.

Lemma lookahead_reverse_fmap (s : str) :
  lookahead_space (reverse (as_space <$> s)) = lookahead_space (reverse s).
Proof. rewrite <- fmap_reverse. apply lookahead_fmap_as_space. Qed.

Lemma _slim_trimmed (s : str) : trimmed (_slim s).
Proof.
  destruct (strip_trimmed (collapse_runs s)) as [H1 H2].
  fold (slim_as_specified s) in H1, H2. rewrite <- _slim_as_specified in H1, H2.
  rewrite lookahead_fmap_as_space in H1. rewrite lookahead_reverse_fmap in H2.
  by split.
Qed.

Lemma squeeze_sublist (s : str) : squeeze s `sublist_of` s.
Proof.
  induction s as [|c tl IH]; [done|]. simpl.
  destruct (isspace c).
  - destruct tl as [|d r]; [apply sublist_nil_l|].
    destruct (isspace d); [by apply sublist_cons|by apply sublist_skip].
  - by apply sublist_skip.
Qed.

Lemma lstrip_sublist (s : str) : lstrip s `sublist_of` s.
Proof.
  induction s as [|c tl IH]; [done|]. simpl.
  destruct (isspace c); [by apply sublist_cons|done].
Qed.

Lemma _slim_sublist (s : str) : _slim s `sublist_of` s.
Proof.
  rewrite _slim_squeeze. etrans; [apply squeeze_sublist|apply lstrip_sublist].
Qed.

(** Where the only whitespace in the value is the space character, [_slim]
    computes exactly what the specification describes. *)
Lemma _slim_spaces_only (s : str) :
  (∀ c, c ∈ s → isspace c = true → c = space) →
  _slim s = slim_as_specified s.
Proof.
  intros H. rewrite <- _slim_as_specified.
  rewrite <- (list_fmap_id (_slim s)) at 1.
  apply list_fmap_ext. intros i c Hc. unfold as_space.
  destruct (isspace c) eqn:E; [|done]. simpl. apply H; [|done].
  eapply elem_of_sublist; [|apply _slim_sublist].
  by eapply list_elem_of_lookup_2.
Qed.

(** No two whitespace characters in a row are left. *)
Lemma squeeze_no_run (s : str) i c d :
  squeeze s !! i = Some c → squeeze s !! S i = Some d →
  isspace c = true → isspace d = false.
Proof.
  revert i. induction s as [|a tl IH]; intros i; [done|]. simpl.
  destruct (isspace a) eqn:Ha.
  - destruct tl as [|b r]; [done|].
    destruct (isspace b) eqn:Hb; [apply IH|].
    destruct i as [|i]; [|apply IH].
    simpl. rewrite Hb. simpl. intros _ [= <-]. done.
  - destruct i as [|i]; [|apply IH]. simpl. intros [= <-]. congruence.
Qed.

Lemma _slim_no_run (s : str) i c d :
  _slim s !! i = Some c → _slim s !! S i = Some d →
  isspace c = true → isspace d = false.
Proof. rewrite _slim_squeeze. apply squeeze_no_run. Qed.

Example _slim_comment : _slim (py " a  b c  ") = py "a b c".
Proof. reflexivity. Qed.

(** ** Trees and paths *)

Lemma Element_ind' (P : Element → Prop) :
  (∀ l cs, Forall P cs → P (Node l cs)) → ∀ el, P el.
Proof.
  intros H. fix IH 1. intros [l cs]. apply H.
  induction cs as [|c cs IHcs]; constructor; [apply IH|apply IHcs].
Qed.

Lemma get_at_cons i p l cs :
  get_at (i :: p) (Node l cs) = cs !! i ≫= get_at p.
Proof. done. Qed.

Lemma label_at_nil el : label_at [] el = Some (label el).
Proof. done. Qed.

Lemma label_at_cons i p l cs :
  label_at (i :: p) (Node l cs) = cs !! i ≫= label_at p.
Proof. unfold label_at. simpl. by destruct (cs !! i). Qed.

Lemma label_at_is_Some p el : is_Some (label_at p el) ↔ is_Some (get_at p el).
Proof. unfold label_at. by rewrite fmap_is_Some. Qed.

(** An update through one path is seen at that path and at no other. *)
Lemma label_at_update f p q root :
  label_at q (update_at f p root) =
    if decide (p = q) then f <$> label_at q root else label_at q root.
Proof.
  revert q root. induction p as [|i p IH]; intros q [l cs].
  - destruct q as [|j q]; simpl; [done|]. by rewrite !label_at_cons.
  - destruct q as [|j q]; simpl; [done|]. rewrite !label_at_cons.
    destruct (decide (i = j)) as [->|Hij].
    + rewrite list_lookup_alter_eq. destruct (cs !! j) as [c|]; simpl.
      * rewrite IH. repeat case_decide; congruence.
      * by case_decide.
    + rewrite list_lookup_alter_ne by done. case_decide; congruence.
Qed.

(** Two trees with the same label at every path are the same tree. *)
Lemma Element_ext t1 t2 :
  (∀ q, label_at q t1 = label_at q t2) → t1 = t2.
Proof.
  revert t2. induction t1 as [l1 cs1 IH] using Element_ind'.
  intros [l2 cs2] H.
  pose proof (H []) as H0. simpl in H0. injection H0 as ->.
  f_equal. apply list_eq. intros i.
  pose proof (H [i]) as Hi. rewrite !label_at_cons in Hi.
  destruct (cs1 !! i) as [c1|] eqn:E1, (cs2 !! i) as [c2|] eqn:E2;
    simpl in Hi; try done.
  f_equal. rewrite Forall_lookup in IH. apply (IH i c1 E1).
  intros q. specialize (H (i :: q)). rewrite !label_at_cons in H.
  by rewrite E1, E2 in H.
Qed.

Lemma label_at_tmap f q root :
  label_at q (tmap f root) = f <$> label_at q root.
Proof.
  revert root. induction q as [|i q IH]; intros [l cs]; [done|].
  simpl tmap. rewrite !label_at_cons, list_lookup_fmap.
  destruct (cs !! i); simpl; [apply IH|done].
Qed.

Lemma update_at_invalid f p root :
  label_at p root = None → update_at f p root = root.
Proof.
  intros H. apply Element_ext. intros q. rewrite label_at_update.
  case_decide; [subst; by rewrite H|done].
Qed.

Lemma update_at_const f p root l :
  label_at p root = Some l → update_at (λ _, f l) p root = update_at f p root.
Proof.
  intros H. apply Element_ext. intros q. rewrite !label_at_update.
  case_decide; [subst; by rewrite H|done].
Qed.

(** ** [iconcat] *)

Section iconcat.
Context {A B : Type} (f : nat → A → list B).

Lemma elem_of_iconcat x i (l : list A) :
  x ∈ iconcat f i l ↔ ∃ j c, l !! j = Some c ∧ x ∈ f (i + j)%nat c.
Proof.
  revert i. induction l as [|a l IH]; intros i; simpl.
  - split; [by intros ?%elem_of_nil|by intros (j & c & ? & _)].
  - rewrite elem_of_app, IH. split.
    + intros [H|(j & c & Hj & H)].
      * exists 0%nat, a. by rewrite Nat.add_0_r.
      * exists (S j), c. by rewrite Nat.add_succ_r.
    + intros ([|j] & c & Hj & H); simpl in Hj.
      * left. injection Hj as ->. by rewrite Nat.add_0_r in H.
      * right. exists j, c. by rewrite Nat.add_succ_r in H.
Qed.

Lemma NoDup_iconcat i (l : list A) :
  (∀ j c, l !! j = Some c → NoDup (f (i + j)%nat c)) →
  (∀ j1 j2 c1 c2 x, l !! j1 = Some c1 → l !! j2 = Some c2 →
     x ∈ f (i + j1)%nat c1 → x ∈ f (i + j2)%nat c2 → j1 = j2) →
  NoDup (iconcat f i l).
Proof.
  revert i. induction l as [|a l IH]; intros i H1 H2; simpl.
  - constructor.
  - apply NoDup_app. split_and!.
    + specialize (H1 0%nat a eq_refl). by rewrite Nat.add_0_r in H1.
    + intros x Hx. rewrite elem_of_iconcat. intros (j & c & Hj & Hx').
      assert (0 = S j)%nat; [|done].
      apply (H2 0%nat (S j) a c x); try done.
      * by rewrite Nat.add_0_r.
      * by rewrite Nat.add_succ_r.
    + apply IH.
      * intros j c Hj. specialize (H1 (S j) c Hj).
        by rewrite Nat.add_succ_r in H1.
      * intros j1 j2 c1 c2 x Hj1 Hj2 Hx1 Hx2.
        assert (S j1 = S j2); [|lia].
        apply (H2 (S j1) (S j2) c1 c2 x); try done;
          by rewrite Nat.add_succ_r.
Qed.
End iconcat.

(** The paths below the children, collected child by child. *)
Lemma elem_of_below (g : Element → list path) p cs :
  p ∈ iconcat (λ i c, (i ::.) <$> g c) 0 cs ↔
  ∃ i q c, p = i :: q ∧ cs !! i = Some c ∧ q ∈ g c.
Proof.
  rewrite elem_of_iconcat. split.
  - intros (j & c & Hj & Hp). apply list_elem_of_fmap in Hp as (q & -> & Hq).
    by exists j, q, c.
  - intros (i & q & c & -> & Hi & Hq). exists i, c. split; [done|].
    apply list_elem_of_fmap. by exists q.
Qed.

Lemma NoDup_below (g : Element → list path) cs :
  Forall (λ c, NoDup (g c)) cs →
  NoDup (iconcat (λ i c, (i ::.) <$> g c) 0 cs).
Proof.
  intros H. apply NoDup_iconcat.
  - intros j c Hj. apply NoDup_fmap_2; [by intros ?? [=]|].
    rewrite Forall_lookup in H. by apply (H j).
  - intros j1 j2 c1 c2 x _ _ (q1 & -> & _)%list_elem_of_fmap
      (q2 & [=] & _)%list_elem_of_fmap. done.
Qed.

(** ** Traversals *)

Lemma elem_of_Element_iter p el : p ∈ Element_iter el ↔ is_Some (label_at p el).
Proof.
  revert p. induction el as [l cs IH] using Element_ind'. intros p.
  simpl. rewrite elem_of_cons, elem_of_below. split.
  - intros [->|(i & q & c & -> & Hi & Hq)]; [done|].
    rewrite label_at_cons, Hi. simpl.
    rewrite Forall_lookup in IH. by apply (IH i c Hi).
  - destruct p as [|i q]; [by left|]. right.
    rewrite label_at_cons in H. destruct (cs !! i) as [c|] eqn:Hi;
      simpl in H; [|by destruct H].
    exists i, q, c. split_and!; try done.
    rewrite Forall_lookup in IH. by apply (IH i c Hi).
Qed.

Lemma NoDup_Element_iter el : NoDup (Element_iter el).
Proof.
  induction el as [l cs IH] using Element_ind'. simpl.
  constructor; [|by apply NoDup_below].
  rewrite elem_of_below. by intros (? & ? & ? & ? & _).
Qed.

Lemma elem_of_iterfind_children tag_ p el :
  p ∈ iconcat (λ i c, if child_matches tag_ (label c) then [[i]] else [])
              0 (children el) ↔
  ∃ i c, p = [i] ∧ children el !! i = Some c ∧ child_matches tag_ (label c) = true.
Proof.
  rewrite elem_of_iconcat. split.
  - intros (j & c & Hj & Hp). exists j, c.
    destruct (child_matches tag_ (label c)); [|by apply elem_of_nil in Hp].
    by apply list_elem_of_singleton in Hp.
  - intros (i & c & -> & Hi & Hc). exists i, c. rewrite Hc.
    split; [done|]. by apply list_elem_of_singleton.
Qed.

Lemma elem_of_iterfind tag_ p el :
  p ∈ iterfind tag_ el ↔
  match tag_ with
  | PAttr key => p = [] ∧ is_Some (attrib (label el) !! key)
  | _ => ∃ i c, p = [i] ∧ children el !! i = Some c ∧
                child_matches tag_ (label c) = true
  end.
Proof.
  destruct tag_; unfold iterfind; try apply elem_of_iterfind_children.
  unfold el_get. destruct (attrib (label el) !! key) as [v|].
  - rewrite list_elem_of_singleton. split; [by intros ->|by intros [-> _]].
  - split; [by intros ?%elem_of_nil|]. by intros [_ [? ?]].
Qed.

Lemma NoDup_iterfind tag_ el : NoDup (iterfind tag_ el).
Proof.
  assert (NoDup (iconcat (λ i c, if child_matches tag_ (label c) then [[i]] else [])
                         0 (children el))).
  { apply NoDup_iconcat.
    - intros j c _. destruct (child_matches _ _); [apply NoDup_singleton|constructor].
    - intros j1 j2 c1 c2 x _ _ H1 H2.
      destruct (child_matches tag_ (label c1)); [|by apply elem_of_nil in H1].
      destruct (child_matches tag_ (label c2)); [|by apply elem_of_nil in H2].
      apply list_elem_of_singleton in H1, H2. simpl in *. congruence. }
  destruct tag_; simpl; try done.
  destruct (el_get _ _); [apply NoDup_singleton|constructor].
Qed.

Lemma selected_nil tag_ l cs :
  selected tag_ (Node l cs) [] ↔
  match tag_ with PAttr key => is_Some (attrib l !! key) | _ => False end.
Proof.
  destruct tag_; simpl; try (split; [by intros [? _]|done]).
  split; [by intros (l' & [= <-] & ?)|]. intros ?. by exists l.
Qed.

Lemma selected_cons tag_ l cs i q :
  selected tag_ (Node l cs) (i :: q) ↔
  ∃ c, cs !! i = Some c ∧
       (selected tag_ c q ∨
        q = [] ∧ match tag_ with
                 | PAttr _ => False
                 | _ => child_matches tag_ (label c) = true
                 end).
Proof.
  assert (Hlab : ∀ (Q : Label → Prop),
            (∃ l', label_at (i :: q) (Node l cs) = Some l' ∧ Q l') ↔
            ∃ c, cs !! i = Some c ∧ ∃ l', label_at q c = Some l' ∧ Q l').
  { intros Q. rewrite label_at_cons. destruct (cs !! i) as [c|]; simpl.
    - split; [intros H; by exists c|by intros (c' & [= <-] & H)].
    - split; [by intros (? & ? & _)|by intros (? & ? & _)]. }
  destruct tag_; unfold selected; fold (selected PStar);
    rewrite ?Hlab.
  3:{ split; [intros (c & ? & ?); exists c; by split; [|left]|].
      intros (c & ? & [?|[_ []]]). by exists c. }
  all: split;
    [ intros (_ & c & Hc & l' & Hl' & Hm); exists c; split; [done|];
      destruct q as [|j q];
      [ right; split; [done|]; rewrite label_at_nil in Hl'; by injection Hl' as <-
      | left; split; [done|]; by exists l' ]
    | intros (c & Hc & [(_ & l' & Hl' & Hm)|[-> Hm]]);
      (split; [done|]); exists c; (split; [done|]);
      [ by exists l' | by exists (label c) ] ].
Qed.

Lemma elem_of__iter tag_ p el : p ∈ SVG._iter tag_ el ↔ selected tag_ el p.
Proof.
  revert p. induction el as [l cs IH] using Element_ind'. intros p.
  rewrite Forall_lookup in IH.
  cbn [SVG._iter]. rewrite elem_of_app, elem_of_below, elem_of_iterfind.
  destruct p as [|i q].
  - rewrite selected_nil. split.
    + intros [H|(? & ? & ? & ? & _)]; [|done].
      destruct tag_; [by destruct H as (? & ? & ? & _)..|by destruct H].
    + destruct tag_; try done. intros H. by left.
  - rewrite selected_cons. split.
    + intros [H|(i' & q' & c & [= <- <-] & Hi & Hq)].
      * destruct tag_; [..|by destruct H].
        all: destruct H as (i' & c & [= <- <-] & Hi & Hc);
          exists c; split; [done|by right].
      * exists c. split; [done|]. left. by apply (IH i c Hi).
    + intros (c & Hi & [Hq|[-> Hc]]).
      * right. exists i, q, c. split_and!; try done. by apply (IH i c Hi).
      * left. destruct tag_; [..|done]; by exists i, c.
Qed.

Lemma NoDup__iter tag_ el : NoDup (SVG._iter tag_ el).
Proof.
  induction el as [l cs IH] using Element_ind'.
  cbn [SVG._iter]. apply NoDup_app. split_and!.
  - apply NoDup_iterfind.
  - intros p Hp. rewrite elem_of_below. intros (i & q & c & -> & Hi & Hq).
    apply elem_of_iterfind in Hp. apply elem_of__iter in Hq.
    destruct tag_; [..|by destruct Hp].
    all: destruct Hp as (i' & c' & [= _ ->] & _ & _); by destruct Hq as [? _].
  - by apply NoDup_below.
Qed.

(** ** Loops *)

(** A loop over distinct elements changes the elements it visits, once
    each, and no other. *)
Lemma label_at_for_each f els root q :
  NoDup els →
  label_at q (for_each f els root) =
    if decide (q ∈ els) then f <$> label_at q root else label_at q root.
Proof.
  unfold for_each. revert root.
  induction els as [|p els IH]; intros root Hnd; cbn [foldl].
  - by rewrite decide_False by apply not_elem_of_nil.
  - apply NoDup_cons in Hnd as [Hp Hnd]. rewrite IH by done.
    rewrite label_at_update.
    destruct (decide (p = q)) as [->|Hpq].
    + rewrite decide_False by done. by rewrite decide_True by left.
    + destruct (decide (q ∈ els)) as [Hq|Hq].
      * by rewrite decide_True by by right.
      * rewrite decide_False; [done|]. intros [?|?]%elem_of_cons; congruence.
Qed.

(** A loop that changes every element, or every element on which the change
    is not the identity, changes the tree as [tmap] does. *)
Lemma for_each_tmap f els root :
  NoDup els →
  (∀ p l, label_at p root = Some l → p ∈ els ∨ f l = l) →
  for_each f els root = tmap f root.
Proof.
  intros Hnd H. apply Element_ext. intros q.
  rewrite label_at_for_each, label_at_tmap by done.
  case_decide as Hq; [done|].
  destruct (label_at q root) as [l|] eqn:E; [|done]. simpl.
  destruct (H q l E) as [?|Hf]; [done|by rewrite Hf].
Qed.

Lemma update_at_fixed f p root l :
  label_at p root = Some l → f l = l → update_at f p root = root.
Proof.
  intros H Hf. apply Element_ext. intros q. rewrite label_at_update.
  case_decide; [subst; rewrite H; simpl; by rewrite Hf|done].
Qed.

(** A loop over a traversal whose body raises nothing on the elements that
    pass the test changes those elements among the visited ones. *)
Lemma for_iter_from_Ok tag_ body f els root :
  (∀ l, passes tag_ l = true → body l = Ok (f l)) →
  for_iter_from tag_ body els root =
    Ok (for_each (λ l, if passes tag_ l then f l else l) els root).
Proof.
  intros Hbody. set (g := λ l, if passes tag_ l then f l else l). revert root.
  induction els as [|p els IH]; intros root; [done|].
  cbn [for_iter_from]. unfold for_each. cbn [foldl]. fold (for_each g els).
  destruct (label_at p root) as [l|] eqn:E.
  - destruct (passes tag_ l) eqn:Hl.
    + rewrite (Hbody l Hl). simpl. rewrite IH.
      assert (update_at (λ _, f l) p root = update_at g p root) as ->; [|done].
      rewrite <- (update_at_const g p root l E). unfold g. by rewrite Hl.
    + rewrite IH, (update_at_fixed g p root l E); [done|].
      unfold g. by rewrite Hl.
  - by rewrite IH, (update_at_invalid g p root E).
Qed.

(** ** The traversal as a list and as a generator *)

Lemma iconcat_ext {A B} (f g : nat → A → list B) i (l : list A) :
  (∀ j c, l !! j = Some c → f (i + j)%nat c = g (i + j)%nat c) →
  iconcat f i l = iconcat g i l.
Proof.
  revert i. induction l as [|a l IH]; intros i H; simpl; [done|].
  f_equal.
  - specialize (H 0%nat a eq_refl). by rewrite Nat.add_0_r in H.
  - apply IH. intros j c Hj. specialize (H (S j) c Hj).
    by rewrite Nat.add_succ_r in H.
Qed.

Lemma filter_iconcat {A B} (P : B → Prop) `{∀ x, Decision (P x)}
    (f : nat → A → list B) i (l : list A) :
  filter P (iconcat f i l) = iconcat (λ i c, filter P (f i c)) i l.
Proof.
  revert i. induction l as [|a l IH]; intros i; simpl; [done|].
  by rewrite filter_app, IH.
Qed.

Lemma filter_below (P Q : path → Prop)
    `{∀ x, Decision (P x)} `{∀ x, Decision (Q x)} i (l : list path) :
  (∀ q, P (i :: q) ↔ Q q) →
  filter P ((i ::.) <$> l) = (i ::.) <$> filter Q l.
Proof.
  intros HPQ. induction l as [|q l IH]; [done|].
  rewrite fmap_cons, !filter_cons.
  destruct (decide (P (i :: q))) as [HP|HP], (decide (Q q)) as [HQ|HQ].
  - rewrite fmap_cons. f_equal. exact IH.
  - by apply HPQ in HP.
  - by apply HPQ in HQ.
  - exact IH.
Qed.

Lemma passes_at_cons tag_ l cs i c q :
  cs !! i = Some c →
  passes_at tag_ (Node l cs) (i :: q) = passes_at tag_ c q.
Proof. intros Hi. unfold passes_at. by rewrite label_at_cons, Hi. Qed.

(** On a tree that is not written to, the traversal yields the visited
    elements that pass the test, in the order of the visit. *)
Lemma passes_at_child tag_ l cs i c :
  cs !! i = Some c → passes_at tag_ (Node l cs) [i] = passes tag_ (label c).
Proof. intros Hi. unfold passes_at. by rewrite label_at_cons, Hi. Qed.

Lemma filter_singleton_bool (b : bool) (p : path) (P : path → bool) :
  P p = b →
  filter (λ q, P q = true) [p] = if b then [p] else [].
Proof.
  intros <-. rewrite filter_cons, filter_nil.
  destruct (P p); by case_decide.
Qed.

Lemma _iter_visits tag_ root :
  SVG._iter tag_ root =
    filter (λ p, passes_at tag_ root p = true) (visits tag_ root).
Proof.
  induction root as [l cs IH] using Element_ind'.
  rewrite Forall_lookup in IH.
  cbn [SVG._iter visits]. rewrite filter_app. f_equal.
  - destruct tag_; cbn [iterfind children].
    1,2: rewrite filter_iconcat; apply iconcat_ext; intros j c Hj;
      cbn [Nat.add]; symmetry;
      apply (filter_singleton_bool _ _ (passes_at _ (Node l cs)));
      by rewrite (passes_at_child _ l cs j c Hj).
    symmetry. etrans.
    { by apply (filter_singleton_bool (passes (PAttr key) l) []
                  (passes_at (PAttr key) (Node l cs))). }
    unfold passes. cbn [label]. by destruct (el_get l key).
  - rewrite filter_iconcat. apply iconcat_ext. intros j c Hj. cbn [Nat.add].
    rewrite (filter_below _ (λ p, passes_at tag_ c p = true)).
    + by rewrite (IH j c Hj).
    + intros q. by rewrite (passes_at_cons tag_ l cs j c q Hj).
Qed.

Lemma visits_PAttr key root : visits (PAttr key) root = Element_iter root.
Proof.
  induction root as [l cs IH] using Element_ind'.
  rewrite Forall_lookup in IH. cbn [visits Element_iter]. simpl. f_equal.
  apply iconcat_ext. intros j c Hj. simpl. by rewrite (IH j c Hj).
Qed.

(** ** The order of strings *)

Lemma str_leb_cons x y (a b : str) :
  str_leb (x :: a) (y :: b) = true ↔ x < y ∨ x = y ∧ str_leb a b = true.
Proof.
  simpl. rewrite orb_true_iff, andb_true_iff, N.ltb_lt, N.eqb_eq. done.
Qed.

Global Instance str_le_total : Total str_le.
Proof.
  intros a. induction a as [|x a IH]; intros [|y b]; unfold str_le in *;
    try (by left); try (by right).
  rewrite !str_leb_cons. destruct (IH b); destruct (N.lt_trichotomy x y) as [?|[?|?]];
    auto.
Qed.

Global Instance str_le_trans : Transitive str_le.
Proof.
  intros a. induction a as [|x a IH]; intros [|y b] [|z c]; unfold str_le in *;
    try done.
  rewrite !str_leb_cons. intros [?|[-> Hab]] [?|[-> Hbc]]; [left; lia|by left..|].
  right. split; [done|]. by apply (IH b c).
Qed.

Global Instance str_le_antisym : AntiSymm (=) str_le.
Proof.
  intros a. induction a as [|x a IH]; intros [|y b]; unfold str_le in *;
    try done.
  rewrite !str_leb_cons. intros [?|[-> Hab]] [?|[? Hba]]; try lia.
  f_equal. by apply IH.
Qed.

Lemma StronglySorted_filter {A} (R : relation A) (P : A → Prop)
    `{∀ x, Decision (P x)} (l : list A) :
  StronglySorted R l → StronglySorted R (filter P l).
Proof.
  induction 1 as [|x l Hl IH Hx]; [constructor|].
  rewrite filter_cons. case_decide; [|done].
  constructor; [done|]. rewrite Forall_forall in Hx |- *.
  intros y [_ Hy]%list_elem_of_filter. by apply Hx.
Qed.

(** ** [split] and [join] *)

Section split.
Variable sep : char.

Lemma split_ne (s : str) : split sep s ≠ [].
Proof.
  destruct s as [|c tl]; simpl; [done|].
  destruct (N.eqb c sep); [done|]. by destruct (split sep tl).
Qed.

Lemma split_notin (w : str) : sep ∉ w → split sep w = [w].
Proof.
  induction w as [|c w IH]; intros Hw; simpl; [done|].
  apply not_elem_of_cons in Hw as [Hc Hw].
  destruct (N.eqb_spec c sep) as [->|_]; [done|]. by rewrite IH.
Qed.

Lemma split_app_sep (w rest : str) :
  sep ∉ w → split sep (w ++ sep :: rest) = w :: split sep rest.
Proof.
  induction w as [|c w IH]; intros Hw; simpl.
  - by rewrite N.eqb_refl.
  - apply not_elem_of_cons in Hw as [Hc Hw].
    destruct (N.eqb_spec c sep) as [->|_]; [done|]. by rewrite IH.
Qed.

(** No piece of a split contains the separator. *)
Lemma split_no_sep (s t : str) : t ∈ split sep s → sep ∉ t.
Proof.
  revert t. induction s as [|c tl IH]; intros t; simpl.
  - intros ->%list_elem_of_singleton. apply not_elem_of_nil.
  - destruct (N.eqb_spec c sep) as [->|Hc].
    + intros [->|?]%elem_of_cons; [apply not_elem_of_nil|by apply IH].
    + destruct (split sep tl) as [|w ws] eqn:E.
      * intros ->%list_elem_of_singleton.
        apply not_elem_of_cons. split; [done|apply not_elem_of_nil].
      * intros [->|?]%elem_of_cons.
        -- apply not_elem_of_cons. split; [done|]. apply IH. by left.
        -- apply IH. by right.
Qed.

Lemma split_join (toks : list str) :
  toks ≠ [] → (∀ t, t ∈ toks → sep ∉ t) →
  split sep (join [sep] toks) = toks.
Proof.
  induction toks as [|w [|w' rest] IH]; intros Hne H; [done|..].
  - simpl. apply split_notin, H. by left.
  - change (join [sep] (w :: w' :: rest)) with (w ++ sep :: join [sep] (w' :: rest)).
    rewrite split_app_sep by (apply H; by left).
    f_equal. apply IH; [done|]. intros t Ht. apply H. by right.
Qed.
End split.

Lemma join_truthy sep (toks : list str) :
  toks ≠ [] → (∀ t, t ∈ toks → truthy t = true) →
  truthy (join sep toks) = true.
Proof.
  destruct toks as [|w rest]; intros Hne H; [done|].
  assert (truthy w = true) by (apply H; by left).
  destruct w; [done|]. by destruct rest.
Qed.

(** ** [set_none] *)

(** [sorted(set(attrs))] and the filter that follows: the distinct non-empty
    strings of [attrs], in ascending order. *)
Lemma sorted_set_spec (attrs : list str) :
  let toks := filter_None (sorted (elements (list_to_set attrs : gset str))) in
  StronglySorted str_le toks ∧ NoDup toks ∧
  ∀ t, t ∈ toks ↔ t ≠ [] ∧ t ∈ attrs.
Proof.
  simpl. unfold filter_None, sorted. split_and!.
  - apply StronglySorted_filter, StronglySorted_merge_sort; apply _.
  - apply NoDup_filter. rewrite merge_sort_Permutation. apply NoDup_elements.
  - intros t. rewrite list_elem_of_filter, merge_sort_Permutation.
    rewrite elem_of_elements, elem_of_list_to_set.
    assert (truthy t = true ↔ t ≠ []) as -> by (by destruct t). done.
Qed.

(** ** [slim] *)

Lemma Label_eq (a b : Label) :
  tag a = tag b → attrib a = attrib b → text a = text b → tail a = tail b →
  a = b.
Proof. destruct a, b; simpl; by intros -> -> -> ->. Qed.

Lemma alter_keys_lookup (f : str → str) (ks : list str) (m : gmap str str) k :
  NoDup ks →
  foldl (λ m att, alter f att m) m ks !! k =
    if decide (k ∈ ks) then f <$> m !! k else m !! k.
Proof.
  revert m. induction ks as [|a ks IH]; intros m Hnd; cbn [foldl].
  - by rewrite decide_False by apply not_elem_of_nil.
  - apply NoDup_cons in Hnd as [Ha Hnd]. rewrite IH by done.
    rewrite lookup_alter.
    destruct (decide (a = k)) as [->|Hak].
    + rewrite decide_False by done. by rewrite decide_True by left.
    + destruct (decide (k ∈ ks)) as [Hk|Hk].
      * by rewrite decide_True by by right.
      * rewrite decide_False; [done|]. intros [?|?]%elem_of_cons; congruence.
Qed.

Lemma slim_attrib_step (c : Label) att :
  match el_get c att with
  | Some v => el_set c att (_slim v)
  | None => c
  end = {| tag := tag c; attrib := alter _slim att (attrib c);
           text := text c; tail := tail c |}.
Proof.
  unfold el_get. destruct (attrib c !! att) as [v|] eqn:E.
  - apply Label_eq; try done. simpl. apply map_eq. intros k.
    rewrite lookup_alter, lookup_insert.
    case_decide; [subst; by rewrite E|done].
  - apply Label_eq; try done. simpl. apply map_eq. intros k.
    rewrite lookup_alter. case_decide; [subst; by rewrite E|done].
Qed.

(** The loop over the keys of an element replaces every attribute value by
    its slimmed form. *)
Lemma slim_attrib_fmap (c : Label) :
  SVG.slim_attrib c =
    {| tag := tag c; attrib := _slim <$> attrib c;
       text := text c; tail := tail c |}.
Proof.
  unfold SVG.slim_attrib.
  assert (H : ∀ ks c0,
    foldl (λ c att, match el_get c att with
                    | Some v => el_set c att (_slim v)
                    | None => c
                    end) c0 ks =
    {| tag := tag c0; attrib := foldl (λ m att, alter _slim att m) (attrib c0) ks;
       text := text c0; tail := tail c0 |}).
  { induction ks as [|a ks IH]; intros c0; cbn [foldl]; [by destruct c0|].
    by rewrite slim_attrib_step, IH. }
  rewrite H. apply Label_eq; try done. simpl. apply map_eq. intros k.
  rewrite alter_keys_lookup by apply NoDup_fst_map_to_list.
  rewrite lookup_fmap. case_decide as Hk; [done|].
  destruct (attrib c !! k) as [v|] eqn:E; [|done].
  destruct Hk. unfold el_keys. apply list_elem_of_fmap. exists (k, v).
  split; [done|]. by apply elem_of_map_to_list.
Qed.

Lemma slim_tmap root : SVG.slim root = tmap slimmed root.
Proof.
  unfold SVG.slim.
  rewrite (for_each_tmap SVG.slim_text).
  2: apply NoDup_Element_iter.
  2: { intros p l H. left. apply elem_of_Element_iter. by rewrite H. }
  rewrite (for_each_tmap SVG.slim_attrib).
  2: apply NoDup_Element_iter.
  2: { intros p l H. left. apply elem_of_Element_iter. by rewrite H. }
  apply Element_ext. intros q. rewrite !label_at_tmap.
  destruct (label_at q root) as [l|]; [|done]. simpl. f_equal.
  rewrite slim_attrib_fmap. by apply Label_eq.
Qed.

Lemma slimmed_idemp (c : Label) : slimmed (slimmed c) = slimmed c.
Proof.
  apply Label_eq; simpl; try done.
  - rewrite <- map_fmap_compose. apply map_fmap_ext. intros k v _.
    apply _slim_idemp.
  - destruct (text c); [|done]. simpl. by rewrite strip_idemp.
Qed.

(** ** [uid] *)

Lemma rewrite_attr_lookup key id (el : Label) k :
  attrib (rewrite_attr key id el) !! k =
    if decide (k = key) then (λ v, SVG.insert v id) <$> attrib el !! k
    else attrib el !! k.
Proof.
  unfold rewrite_attr, el_get.
  destruct (attrib el !! key) as [v|] eqn:E; simpl.
  - rewrite lookup_insert. case_decide; case_decide; try congruence.
    subst. by rewrite E.
  - case_decide; [subst; by rewrite E|done].
Qed.

(** A loop of [uid] raises nothing and rewrites the attribute wherever it
    is present. *)
Lemma uid_loop key id root :
  for_iter (PAttr key) (SVG.uid_body key id) root =
    Ok (tmap (rewrite_attr key id) root).
Proof.
  unfold for_iter.
  rewrite (for_iter_from_Ok _ _ (rewrite_attr key id)).
  - f_equal. rewrite visits_PAttr. rewrite for_each_tmap.
    + apply Element_ext. intros q. rewrite !label_at_tmap.
      destruct (label_at q root) as [l|]; [|done]. simpl. f_equal.
      unfold passes, rewrite_attr. by destruct (el_get l key).
    + apply NoDup_Element_iter.
    + intros p l H. left. apply elem_of_Element_iter. by rewrite H.
  - intros l. unfold passes, SVG.uid_body, rewrite_attr.
    by destruct (el_get l key).
Qed.

(** * The claims of the specification *)

(** ** Uniquify: [insert] *)

(** C1, counterexample.  For the identifier ["a_"] the segment after the
    last hyphen is empty; the specification's reassembly leaves it out with
    its separator and gives ["a-u"], [insert] writes the hyphen after the
    unique id all the same and gives ["a-u-"]. *)
Lemma insert_keeps_hyphen_of_empty_segment :
  SVG.insert (py "a_") (py "u") = py "a-u-" ∧
  insert_as_specified (py "a_") (py "u") = py "a-u" ∧
  SVG.insert (py "a_") (py "u") ≠ insert_as_specified (py "a_") (py "u").
Proof. by split_and!. Qed.

(** C1 (amended).  [insert] replaces underscores by hyphens and splits the
    result into a prefix, which is empty or ends with the last ['#'], and a
    rest without ['#'].  When the rest has no hyphen, the result is the
    prefix, the unique id, a hyphen and the rest; otherwise the rest splits
    at its last hyphen into [before] and [after], and the result is the
    prefix, [before], a hyphen, the unique id, a hyphen and [after].  The
    hyphen behind the unique id is written also when what follows it is
    empty, and the hyphen in front of it also when [before] is empty.  The
    three examples of the specification hold. *)
Theorem insert_reassembles (s u : str) :
  (∃ prefix rest,
      replace underscore hyphen s = prefix ++ rest ∧
      (sharp_sign ∉ rest) ∧
      (prefix = [] ∨ ∃ front, prefix = front ++ [sharp_sign]) ∧
      (((hyphen ∉ rest) ∧
        SVG.insert s u = prefix ++ u ++ [hyphen] ++ rest) ∨
       (∃ before after,
           rest = before ++ [hyphen] ++ after ∧ (hyphen ∉ after) ∧
           SVG.insert s u =
             prefix ++ before ++ [hyphen] ++ u ++ [hyphen] ++ after))) ∧
  SVG.insert (py "hello-world") (py "what1234") = py "hello-what1234-world" ∧
  SVG.insert (py "#hey") (py "world123x") = py "#world123x-hey" ∧
  SVG.insert (py "#a-b-c") (py "x0000000") = py "#a-b-x0000000-c".
Proof.
  split; [|by split_and!].
  set (s' := replace underscore hyphen s).
  assert (Hsplit : ∃ prefix sharp rest,
             rpartition sharp_sign s' = (prefix, sharp, rest) ∧
             s' = (prefix ++ sharp) ++ rest ∧ (sharp_sign ∉ rest) ∧
             (prefix ++ sharp = [] ∨ ∃ front, prefix ++ sharp = front ++ [sharp_sign])).
  { destruct (decide (sharp_sign ∈ s')) as [Hin|Hnot].
    - destruct (last_occurrence _ _ Hin) as (b & a & E & Ha).
      exists b, [sharp_sign], a. rewrite E at 1.
      rewrite rpartition_in by done. split_and!; try done.
      + by rewrite E, <- app_assoc.
      + right. by exists b.
    - exists [], [], s'. rewrite rpartition_notin by done.
      split_and!; try done. by left. }
  destruct Hsplit as (prefix & sharp & rest & E1 & Hs' & Hrest & Hprefix).
  exists (prefix ++ sharp), rest. split_and!; try done.
  rewrite insert_parts. fold s'. rewrite E1.
  destruct (decide (hyphen ∈ rest)) as [Hin|Hnot].
  - right. destruct (last_occurrence _ _ Hin) as (b & a & -> & Ha).
    exists b, a. rewrite rpartition_in by done.
    split_and!; try done. by rewrite <- !app_assoc.
  - left. rewrite rpartition_notin by done.
    split; [done|]. by rewrite <- !app_assoc.
Qed.

(** C4.  For a string that contains a hyphen, two different unique ids give
    two different results. *)
Theorem insert_injective (s u1 u2 : str) :
  hyphen ∈ s → u1 ≠ u2 → SVG.insert s u1 ≠ SVG.insert s u2.
Proof. intros _ Hu E. by apply Hu, (insert_inj s). Qed.

(** C4, at the identifier ["a-b"] and the unique ids ["x"] and ["y"]. *)
Lemma insert_injective_witness :
  hyphen ∈ py "a-b" ∧ py "x" ≠ py "y" ∧
  SVG.insert (py "a-b") (py "x") ≠ SVG.insert (py "a-b") (py "y").
Proof.
  assert (H1 : hyphen ∈ py "a-b") by (right; left).
  assert (H2 : py "x" ≠ py "y") by discriminate.
  split_and!; [exact H1|exact H2|].
  exact (insert_injective (py "a-b") (py "x") (py "y") H1 H2).
Defined.

(** C6.  For an identifier without ['#'], the fragment reference and the
    functional reference to it are rewritten to references to the rewritten
    identifier. *)
Theorem insert_preserves_references (s u : str) :
  sharp_sign ∉ s →
  SVG.insert (py "#" ++ s) u = py "#" ++ SVG.insert s u ∧
  SVG.insert (py "url(#" ++ s ++ py ")") u =
    py "url(#" ++ SVG.insert s u ++ py ")".
Proof.
  intros Hs. split.
  - pose proof (insert_after_sharp [] s [] u) as H.
    rewrite !app_nil_r in H. apply H; try done; apply not_elem_of_nil.
  - apply (insert_after_sharp (py "url(") s (py ")") u); try done.
    all: by intros [[=]|?%elem_of_nil]%elem_of_cons.
Qed.

(** C6, at the identifier ["line_1"]. *)
Lemma insert_preserves_references_witness :
  (sharp_sign ∉ py "line_1") ∧
  SVG.insert (py "#" ++ py "line_1") (py "u") =
    py "#" ++ SVG.insert (py "line_1") (py "u") ∧
  SVG.insert (py "url(#" ++ py "line_1" ++ py ")") (py "u") =
    py "url(#" ++ SVG.insert (py "line_1") (py "u") ++ py ")".
Proof.
  assert (H : sharp_sign ∉ py "line_1").
  { intros H. by vm_compute in H; repeat (apply elem_of_cons in H as [?|H]);
      try apply elem_of_nil in H. }
  split; [exact H|].
  exact (insert_preserves_references (py "line_1") (py "u") H).
Defined.

(** ** The style vocabulary *)

(** C7, counterexample.  For the empty style string the parse step yields
    nothing, but the classes returned are not none. *)
Lemma classify_empty_style_not_empty :
  StyleMap.parse [] = [] ∧
  StyleMap.class_list [] ≠ Ok [] ∧
  StyleMap.classify [] ≠ Ok [].
Proof. by split_and!. Qed.

(** C7 (amended).  For the empty style string the parse step yields no
    declaration, and the classes returned are those of the global defaults
    alone: [butt] and [rounded]. *)
Theorem classify_empty_style :
  StyleMap.parse [] = [] ∧
  StyleMap.class_list [] = Ok [py "butt"; py "rounded"] ∧
  StyleMap.classify [] = Ok (py "butt rounded").
Proof. by split_and!. Qed.

(** ** [set_none] *)

(** C10, counterexample.  An element with [class=""] and no new class ends
    up with no class and still carries its [class] attribute. *)
Lemma set_none_keeps_empty_attribute :
  let el := element "path" [attr "class" ""] in
  filter_None (split space (default [] (el_get el (py "class"))) ++
               split space []) = [] ∧
  SVG.set_none el (py "class") [] = el ∧
  el_get (SVG.set_none el (py "class") []) (py "class") = Some [].
Proof. by split_and!. Qed.

(** C10 (amended).  [set_none] splits the present value of the attribute
    (the empty string when the element has none) and the new value at single
    spaces; the merged tokens are the distinct non-empty pieces, in ascending
    order.  When there is at least one, the attribute is set to the tokens
    joined by single spaces, and splitting that value gives the tokens back.
    When there is none, the element is left as it is: it gets no attribute,
    and an attribute it had stays. *)
Theorem set_none_merges (el : Label) (attr_ value : str) :
  ∃ toks : list str,
    StronglySorted str_le toks ∧ NoDup toks ∧
    (∀ t, t ∈ toks ↔
          t ≠ [] ∧ (t ∈ split space (default [] (el_get el attr_)) ∨
                    t ∈ split space value)) ∧
    match toks with
    | [] => SVG.set_none el attr_ value = el
    | _ :: _ =>
        SVG.set_none el attr_ value = el_set el attr_ (join [space] toks) ∧
        split space (join [space] toks) = toks
    end.
Proof.
  set (attrs := split space (default [] (el_get el attr_)) ++ split space value).
  destruct (sorted_set_spec attrs) as (Hsorted & Hnd & Hin).
  set (toks := filter_None (sorted (elements (list_to_set attrs : gset str)))) in *.
  exists toks. split_and!; try done.
  - intros t. rewrite Hin. unfold attrs. by rewrite elem_of_app.
  - unfold SVG.set_none. fold attrs. fold toks.
    destruct toks as [|w rest] eqn:E; [done|]. rewrite <- E in *.
    assert (Hne : toks ≠ []) by (by rewrite E).
    rewrite join_truthy; [split; [done|]|done|].
    + apply split_join; [done|]. intros t [_ Ht]%Hin.
      apply elem_of_app in Ht as [Ht|Ht]; by apply split_no_sep in Ht.
    + intros t [Ht _]%Hin. by destruct t.
Qed.

(** ** [slim] *)

(** C3.  Slimming a slimmed document changes nothing. *)
Theorem slim_idempotent (root : Element) :
  SVG.slim (SVG.slim root) = SVG.slim root.
Proof.
  rewrite !slim_tmap. apply Element_ext. intros q.
  rewrite !label_at_tmap. destruct (label_at q root); [|done].
  simpl. by rewrite slimmed_idemp.
Qed.

(** C9, counterexample.  Text that is blank becomes the empty string, not an
    absent text, and an attribute value whose only whitespace is a tab
    between two letters keeps the tab, where the specification puts a
    space. *)
Lemma slim_keeps_empty_text_and_tab :
  (text <$> label_at [] (SVG.slim blank)) = Some (Some []) ∧
  (label_at [] (SVG.slim blank) ≫= λ c, attrib c !! py "x") = Some [97; 9; 98] ∧
  slim_as_specified [97; 9; 98] = py "a b".
Proof. by split_and!. Qed.

Lemma lstrip_app_nonspace (a b : str) x :
  isspace x = false → lstrip (a ++ x :: b) = lstrip (a ++ [x]) ++ b.
Proof.
  intros Hx. induction a as [|c a IH]; simpl.
  - by rewrite Hx.
  - destruct (isspace c); [exact IH|]. simpl. by rewrite <- app_assoc.
Qed.

Lemma lstrip_snoc_nonspace (a : str) x :
  isspace x = false → ∃ a', lstrip (a ++ [x]) = a' ++ [x].
Proof.
  intros Hx. induction a as [|c a (a' & IH)]; simpl.
  - rewrite Hx. by exists [].
  - destruct (isspace c); [by exists a'|]. by exists (c :: a).
Qed.

Lemma squeeze_app_nonspace (a b : str) x :
  isspace x = false →
  squeeze (a ++ x :: b) = squeeze (a ++ [x]) ++ squeeze b.
Proof.
  intros Hx. induction a as [|c a IH]; simpl.
  - by rewrite Hx.
  - rewrite IH. destruct (isspace c); [|done].
    destruct a as [|d a]; simpl; [by rewrite Hx|].
    by destruct (isspace d).
Qed.

Lemma squeeze_run (w b : str) c d :
  Forall (λ e, isspace e = true) w → isspace c = true → isspace d = false →
  squeeze (w ++ c :: d :: b) = c :: squeeze (d :: b).
Proof.
  intros Hw Hc Hd. induction Hw as [|e w He Hw IH].
  - simpl. by rewrite Hc, Hd.
  - destruct w as [|e' w].
    + simpl. by rewrite ?He, ?Hc, ?Hd.
    + apply Forall_cons in Hw as [He' _].
      rewrite <- IH. cbn [app squeeze]. by rewrite He, He'.
Qed.

(** Of a run of whitespace between two characters that are not whitespace,
    [_slim] keeps the last character and nothing else. *)
Lemma _slim_run (a w b : str) x c d :
  isspace x = false → Forall (λ e, isspace e = true) w →
  isspace c = true → isspace d = false →
  _slim ((a ++ [x]) ++ (w ++ [c]) ++ d :: b) =
    _slim (a ++ [x]) ++ [c] ++ _slim (d :: b).
Proof.
  intros Hx Hw Hc Hd. rewrite !_slim_squeeze.
  rewrite <- !app_assoc. cbn [app].
  rewrite (lstrip_app_nonspace a _ x Hx).
  destruct (lstrip_snoc_nonspace a x Hx) as (a' & ->).
  rewrite <- app_assoc. cbn [app].
  rewrite (squeeze_app_nonspace a' _ x Hx), squeeze_run by done.
  by rewrite (lstrip_fixed (d :: b)) by (simpl; done).
Qed.

(** C9 (amended).  After [slim] every element has its text stripped of
    leading and trailing whitespace (an absent text stays absent, a text that
    becomes empty stays the empty string), has no tail, and has every
    attribute value replaced by its slimmed form: without leading and
    trailing whitespace and with every other run of whitespace reduced to
    one character, the last of the run.  Slimming only deletes characters:
    after the leading whitespace, a whitespace character stays exactly when
    the character behind it is not whitespace.  Read with every whitespace
    character as a space, the slimmed value is the value the specification
    describes, and it is that value exactly when the only whitespace in the
    original is the space character. *)
Theorem slim_normalises (root : Element) (p : path) :
  label_at p (SVG.slim root) =
    (λ c, {| tag := tag c; attrib := _slim <$> attrib c;
             text := strip <$> text c; tail := None |}) <$> label_at p root ∧
  (∀ t : str,
      trimmed (strip t) ∧
      ∃ a b, t = a ++ strip t ++ b ∧
             Forall (λ c, isspace c = true) a ∧
             Forall (λ c, isspace c = true) b) ∧
  (∀ v : str,
      trimmed (_slim v) ∧
      (∀ i c d, _slim v !! i = Some c → _slim v !! S i = Some d →
                isspace c = true → isspace d = false) ∧
      as_space <$> _slim v = slim_as_specified v ∧
      ((∀ c, c ∈ v → isspace c = true → c = space) →
       _slim v = slim_as_specified v) ∧
      _slim v `sublist_of` v ∧
      _slim v = squeeze (lstrip v)) ∧
  (∀ (a w b : str) (x c d : char),
      isspace x = false → Forall (λ e, isspace e = true) w →
      isspace c = true → isspace d = false →
      _slim ((a ++ [x]) ++ (w ++ [c]) ++ d :: b) =
        _slim (a ++ [x]) ++ [c] ++ _slim (d :: b)).
Proof.
  split_and!.
  - by rewrite slim_tmap, label_at_tmap.
  - intros t. split; [apply strip_trimmed|apply strip_split].
  - intros v. split_and!.
    + apply _slim_trimmed.
    + apply _slim_no_run.
    + apply _slim_as_specified.
    + apply _slim_spaces_only.
    + apply _slim_sublist.
    + apply _slim_squeeze.
  - apply _slim_run.
Qed.

(** C9 (amended), at the blank element, at the value of the comment in the
    source, and at a value with a space and a tab between two letters, of
    which the tab stays. *)
Lemma slim_normalises_witness :
  (text <$> label_at [] (SVG.slim blank)) = Some (Some []) ∧
  _slim (py " a  b c  ") = slim_as_specified (py " a  b c  ") ∧
  _slim [97; 32; 9; 98] = [97; 9; 98].
Proof.
  destruct (slim_normalises blank []) as (H1 & _ & H3 & H4).
  split_and!; [by rewrite H1| |].
  - destruct (H3 (py " a  b c  ")) as (_ & _ & _ & Hspaces & _ & _).
    apply Hspaces. intros c Hc Hs.
    vm_compute in Hc. repeat (apply elem_of_cons in Hc as [->|Hc]).
    all: try (by apply elem_of_nil in Hc); try reflexivity; by vm_compute in Hs.
  - apply (H4 [] [32] [] 97 9 98); try reflexivity; by repeat constructor.
Defined.

(** ** [_iter] *)

Lemma selected_below_root tag_ root p :
  is_tag tag_ →
  selected tag_ root p ↔
  below_root_matching tag_ root p = true ∧ is_Some (label_at p root).
Proof.
  intros Htag. unfold below_root_matching.
  assert (selected tag_ root p ↔
          p ≠ [] ∧ ∃ l, label_at p root = Some l ∧ child_matches tag_ l = true)
    as -> by by destruct tag_.
  destruct p as [|i q]; [by split; [intros [? _]|intros [? _]]|].
  destruct (label_at (i :: q) root) as [l|]; split.
  - intros [_ (l' & [= <-] & ?)]. by split.
  - intros [? _]. split; [done|]. by exists l.
  - by intros [_ (? & ? & _)].
  - by intros [? _].
Qed.

(** C8, counterexample.  In a document with two groups, the first of which
    has a child, the traversal yields both groups before the child; in
    depth-first pre-order the child comes between them. *)
Lemma iter_not_preorder :
  SVG.iter PStar nested = [[0]; [1]; [0; 0]]%nat ∧
  findAll_as_specified PStar nested = [[0]; [0; 0]; [1]]%nat ∧
  SVG.iter PStar nested ≠ findAll_as_specified PStar nested.
Proof. by split_and!. Qed.

(** C8 (amended).  For a tag name or the wildcard, the traversal yields
    every matching element below the root exactly once: it yields no element
    twice and what it yields is a rearrangement of the matching elements in
    depth-first pre-order.  Its order is: the matching children of the
    element, in document order, then for each child in turn what the
    traversal of that child yields. *)
Theorem iter_yields_each_match_once (tag_ : pattern) (root : Element) :
  is_tag tag_ →
  NoDup (SVG.iter tag_ root) ∧
  SVG.iter tag_ root ≡ₚ findAll_as_specified tag_ root ∧
  SVG.iter tag_ root =
    iconcat (λ i c, if child_matches tag_ (label c) then [[i]] else [])
            0 (children root) ++
    iconcat (λ i c, (i ::.) <$> SVG.iter tag_ c) 0 (children root).
Proof.
  intros Htag. split_and!.
  - apply NoDup__iter.
  - apply NoDup_Permutation.
    + apply NoDup__iter.
    + apply NoDup_filter, NoDup_Element_iter.
    + intros p. unfold SVG.iter, findAll_as_specified.
      rewrite elem_of__iter, list_elem_of_filter, elem_of_Element_iter.
      by apply selected_below_root.
  - destruct root as [l cs]. by destruct tag_.
Qed.

(** C8 (amended), at the groups of the example figure. *)
Lemma iter_yields_each_match_once_witness :
  is_tag (PTag (py "g")) ∧
  SVG.iter (PTag (py "g")) figure ≡ₚ findAll_as_specified (PTag (py "g")) figure.
Proof.
  split; [exact I|].
  exact (proj1 (proj2 (iter_yields_each_match_once (PTag (py "g")) figure I))).
Defined.

(** ** [uid] *)

(** C5.  [uid] raises nothing, and in the document it leaves, every element
    of the tree, the root included, has the values of [id], [href] and
    [clip-path] replaced by their rewritten form, which is never the value it
    had; nothing else changes. *)
Theorem uid_rewrites_every_reference (id : str) (root : Element) :
  ∃ root',
    SVG.uid id root = Ok root' ∧
    ∀ p,
      match label_at p root with
      | Some el =>
          ∃ el', label_at p root' = Some el' ∧
            tag el' = tag el ∧ text el' = text el ∧ tail el' = tail el ∧
            (∀ key,
               attrib el' !! key =
                 if decide (key ∈ [py "id"; py "href"; py "clip-path"])
                 then (λ v, SVG.insert v id) <$> attrib el !! key
                 else attrib el !! key) ∧
            (∀ key v,
               key ∈ [py "id"; py "href"; py "clip-path"] →
               attrib el !! key = Some v →
               attrib el' !! key = Some (SVG.insert v id) ∧
               SVG.insert v id ≠ v ∧
               attrib el' !! key ≠ attrib el !! key)
      | None => label_at p root' = None
      end.
Proof.
  eexists. split.
  - unfold SVG.uid. rewrite uid_loop. simpl. rewrite uid_loop. simpl.
    apply uid_loop.
  - intros p. rewrite !label_at_tmap.
    destruct (label_at p root) as [el|]; [|done]. simpl.
    eexists. split; [done|].
    assert (Hfield : ∀ key l,
              tag (rewrite_attr key id l) = tag l ∧
              text (rewrite_attr key id l) = text l ∧
              tail (rewrite_attr key id l) = tail l).
    { intros key l. unfold rewrite_attr. by destruct (el_get l key). }
    assert (Hattr : ∀ key,
      attrib (rewrite_attr (py "clip-path") id
                (rewrite_attr (py "href") id
                   (rewrite_attr (py "id") id el))) !! key =
        if decide (key ∈ [py "id"; py "href"; py "clip-path"])
        then (λ v, SVG.insert v id) <$> attrib el !! key
        else attrib el !! key).
    { intros key. rewrite !rewrite_attr_lookup.
      destruct (decide (key = py "clip-path")) as [->|H1];
        [|destruct (decide (key = py "href")) as [->|H2];
          [|destruct (decide (key = py "id")) as [->|H3]]].
      all: rewrite ?decide_False by (by vm_compute).
      1-3: by rewrite decide_True by (rewrite !elem_of_cons; auto).
      rewrite decide_False; [done|].
      rewrite !elem_of_cons, elem_of_nil. tauto. }
    split_and!; try (by rewrite !(λ k l, proj1 (Hfield k l)));
      try (by rewrite !(λ k l, proj1 (proj2 (Hfield k l))));
      try (by rewrite !(λ k l, proj2 (proj2 (Hfield k l)))).
    + exact Hattr.
    + intros key v Hkey Hv. rewrite Hattr, decide_True, Hv by done. simpl.
      split_and!; [done|apply insert_changes|].
      intros [= E]. by apply (insert_changes v id).
Qed.

(** C5, at the example figure: the identifier of the group, the reference
    of the [use] element and the clip path of the path are rewritten. *)
Lemma uid_rewrites_every_reference_witness :
  ∃ root',
    SVG.uid (py "u") figure = Ok root' ∧
    attr_at (py "id") root' [1]%nat = Some (py "figure-u-1") ∧
    attr_at (py "href") root' [1; 1]%nat = Some (py "#u-m1") ∧
    attr_at (py "clip-path") root' [1; 0]%nat = Some (py "url(#u-p1)") ∧
    attr_at (py "id") root' [1]%nat ≠ attr_at (py "id") figure [1]%nat.
Proof.
  destruct (uid_rewrites_every_reference (py "u") figure) as (root' & Huid & H).
  exists root'. split; [exact Huid|].
  pose proof (H [1]%nat) as H1.
  pose proof (H [1; 1]%nat) as H2.
  pose proof (H [1; 0]%nat) as H3.
  unfold attr_at.
  change (label_at [1]%nat figure)
    with (Some (element "g" [attr "id" "figure_1"])) in *.
  change (label_at [1; 1]%nat figure)
    with (Some (element "use" [attr "href" "#m1"])) in *.
  change (label_at [1; 0]%nat figure)
    with (Some (element "path"
                  [attr "style" "stroke:#1f77b4;stroke-width:0.8";
                   attr "id" "line1"; attr "clip-path" "url(#p1)"])) in *.
  destruct H1 as (e1 & -> & _ & _ & _ & _ & K1).
  destruct H2 as (e2 & -> & _ & _ & _ & _ & K2).
  destruct H3 as (e3 & -> & _ & _ & _ & _ & K3).
  assert (I1 : py "id" ∈ [py "id"; py "href"; py "clip-path"]) by left.
  assert (I2 : py "href" ∈ [py "id"; py "href"; py "clip-path"])
    by (right; left).
  assert (I3 : py "clip-path" ∈ [py "id"; py "href"; py "clip-path"])
    by (right; right; left).
  destruct (K1 (py "id") (py "figure_1") I1 eq_refl) as (E1 & _ & N1).
  destruct (K2 (py "href") (py "#m1") I2 eq_refl) as (E2 & _ & _).
  destruct (K3 (py "clip-path") (py "url(#p1)") I3 eq_refl) as (E3 & _ & _).
  cbn [mbind option_bind].
  split_and!; [exact E1|exact E2|exact E3|exact N1].
Defined.

(** ** [classify] *)

Lemma no_match_no_attribute key root :
  length (SVG.iter (PAttr key) root) = 0%nat →
  ∀ p l, label_at p root = Some l → attrib l !! key = None.
Proof.
  intros H p l Hl. apply length_zero_iff_nil in H.
  destruct (attrib l !! key) as [v|] eqn:E; [|done].
  assert (Hp : p ∈ SVG.iter (PAttr key) root).
  { apply elem_of__iter. exists l. by rewrite E. }
  rewrite H in Hp. by apply elem_of_nil in Hp.
Qed.

(** C2.  When [classify] returns, no element of the document has a [style]
    attribute. *)
Theorem classify_no_residual_style (root root' : Element) :
  SVG.classify root = Ok root' →
  ∀ p l, label_at p root' = Some l → attrib l !! py "style" = None.
Proof.
  unfold SVG.classify. intros H p l Hl.
  destruct (for_iter _ _ root) as [r1|]; simpl in H; [|done].
  destruct (for_iter _ _ r1) as [r2|]; simpl in H; [|done].
  destruct (for_iter _ _ r2) as [r3|]; simpl in H; [|done].
  destruct (for_iter _ _ r3) as [r4|]; simpl in H; [|done].
  case_decide as Hassert; [|done].
  destruct (SVG.style r4) as [q|]; [|done].
  injection H as <-.
  rewrite label_at_update in Hl.
  case_decide.
  - destruct (label_at p r4) as [l4|] eqn:E4; [|done].
    injection Hl as <-. simpl.
    by apply (no_match_no_attribute _ r4 Hassert p).
  - by apply (no_match_no_attribute _ r4 Hassert p).
Qed.

Lemma classify_figure : SVG.classify figure = Ok classified_figure.
Proof. vm_compute. reflexivity. Qed.

(** C2, at the example figure, on which [classify] returns. *)
Lemma classify_no_residual_style_witness :
  SVG.classify figure = Ok classified_figure ∧
  ∀ p l, label_at p classified_figure = Some l → attrib l !! py "style" = None.
Proof.
  assert (H : SVG.classify figure = Ok classified_figure)
    by (vm_compute; reflexivity).
  split; [exact H|].
  exact (classify_no_residual_style figure classified_figure H).
Defined.

Example classified_path :
  label_at [1; 0]%nat classified_figure =
    Some (element "path" [attr "class" "blue butt rounded thin";
                          attr "id" "line1"; attr "clip-path" "url(#p1)"]).
Proof. vm_compute. reflexivity. Qed.

Example uid_figure_path :
  (r ← SVG.uid (py "u") figure; Ok (label_at [1; 0]%nat r)) =
    Ok (Some (element "path"
                [attr "style" "stroke:#1f77b4;stroke-width:0.8";
                 attr "id" "u-line1"; attr "clip-path" "url(#u-p1)"])).
Proof. vm_compute. reflexivity. Qed.

Example uid_figure_group :
  (r ← SVG.uid (py "u") figure; Ok (label_at [1]%nat r)) =
    Ok (Some (element "g" [attr "id" "figure-u-1"])).
Proof. vm_compute. reflexivity. Qed.

(** * Further properties of the code *)

(** ** [insert] *)

(** X1.  The result of [insert] is longer than the string by the length of
    the unique id and one hyphen; in particular it is never the string
    itself. *)
Theorem insert_length (s u : str) :
  length (SVG.insert s u) = (length s + length u + 1)%nat.
Proof.
  destruct (insert_decompose s) as (front & back & Hs & _ & H).
  rewrite H, <- (length_replace underscore hyphen s), Hs.
  rewrite !length_app. simpl. lia.
Qed.

Lemma replace_idemp (s : str) :
  replace underscore hyphen (replace underscore hyphen s) =
  replace underscore hyphen s.
Proof.
  unfold replace. rewrite <- list_fmap_compose. apply list_fmap_ext.
  intros _ c _. simpl. destruct (N.eqb_spec c underscore); [done|].
  destruct (N.eqb_spec c underscore); done.
Qed.

Lemma insert_replace (s u : str) :
  SVG.insert (replace underscore hyphen s) u = SVG.insert s u.
Proof. unfold SVG.insert. by rewrite replace_idemp. Qed.

Lemma insert_same_result (s1 s2 u : str) :
  SVG.insert s1 u = SVG.insert s2 u →
  replace underscore hyphen s1 = replace underscore hyphen s2.
Proof.
  destruct (insert_decompose s1) as (f1 & b1 & Hs1 & Hb1 & H1).
  destruct (insert_decompose s2) as (f2 & b2 & Hs2 & Hb2 & H2).
  rewrite H1, H2, Hs1, Hs2. intros E.
  assert (E' : rpartition hyphen ((f1 ++ u) ++ hyphen :: b1) =
               rpartition hyphen ((f2 ++ u) ++ hyphen :: b2)).
  { rewrite <- !app_assoc. simpl in E. by rewrite E. }
  rewrite !rpartition_in in E' by done.
  injection E' as Ef ->. by apply app_inv_tail in Ef as ->.
Qed.

(** X2.  With the same unique id, two strings are rewritten to the same
    result exactly when they are the same up to underscores standing for
    hyphens: identifiers that differ otherwise stay different, identifiers
    such as [a_b] and [a-b] are merged. *)
Theorem insert_eq_iff (s1 s2 u : str) :
  SVG.insert s1 u = SVG.insert s2 u ↔
  replace underscore hyphen s1 = replace underscore hyphen s2.
Proof.
  split; [apply insert_same_result|].
  intros E. by rewrite <- (insert_replace s1), <- (insert_replace s2), E.
Qed.

(** X3.  No underscore is left in the result, unless the unique id has
    one. *)
Theorem insert_no_underscore (s u : str) :
  underscore ∉ u → underscore ∉ SVG.insert s u.
Proof.
  intros Hu. destruct (insert_decompose s) as (front & back & Hs & _ & H).
  assert (Hs' : underscore ∉ replace underscore hyphen s).
  { unfold replace. rewrite list_elem_of_fmap. intros (c & Hc & _).
    destruct (N.eqb_spec c underscore); [done|congruence]. }
  rewrite Hs in Hs'. rewrite H. rewrite !elem_of_app in *.
  intros [?|[?|[?%list_elem_of_singleton|?]]]; try tauto. done.
Qed.

Lemma insert_no_underscore_witness :
  (underscore ∉ py "u1") ∧ underscore ∉ SVG.insert (py "line_2d_1") (py "u1").
Proof.
  assert (H : underscore ∉ py "u1").
  { intros H. vm_compute in H.
    repeat (apply elem_of_cons in H as [H|H]; [done|]).
    by apply elem_of_nil in H. }
  split; [exact H|].
  exact (insert_no_underscore (py "line_2d_1") (py "u1") H).
Defined.

(** ** Whitespace *)

Lemma filter_nonspace_lstrip (s : list char) :
  filter nonspace (lstrip s) = filter nonspace s.
Proof.
  induction s as [|c tl IH]; [done|]. cbn [lstrip].
  destruct (isspace c) eqn:E; [|done].
  rewrite (filter_cons_False _ c tl); [done|]. unfold nonspace. by rewrite E.
Qed.

Lemma filter_nonspace_rstrip (s : list char) :
  filter nonspace (rstrip s) = filter nonspace s.
Proof.
  induction s as [|c tl IH]; [done|]. cbn [rstrip].
  rewrite (filter_cons _ c tl), <- IH.
  destruct (decide (nonspace c)) as [Hc|Hc]; unfold nonspace in Hc.
  - rewrite Hc. destruct (rstrip tl); cbv iota;
      by rewrite (filter_cons_True nonspace c _) by done.
  - apply not_false_is_true in Hc. rewrite Hc.
    destruct (rstrip tl) as [|d r]; cbv iota; [done|].
    by rewrite (filter_cons_False nonspace c _)
      by (unfold nonspace; by rewrite Hc).
Qed.

Lemma filter_nonspace_squeeze (s : list char) :
  filter nonspace (squeeze s) = filter nonspace s.
Proof.
  induction s as [|c tl IH]; [done|]. cbn [squeeze].
  rewrite (filter_cons _ c tl), <- IH.
  destruct (decide (nonspace c)) as [Hc|Hc]; unfold nonspace in Hc.
  - rewrite Hc. cbv iota. by rewrite (filter_cons_True nonspace c _) by done.
  - apply not_false_is_true in Hc. rewrite Hc. cbv iota.
    destruct tl as [|d r]; [done|].
    destruct (isspace d); [done|].
    by rewrite (filter_cons_False nonspace c _)
      by (unfold nonspace; by rewrite Hc).
Qed.

(** X4.  Stripping a text and slimming an attribute value delete whitespace
    only: the characters that are not whitespace stay, in their order. *)
Theorem slim_keeps_nonspace (s : str) :
  filter (λ c, isspace c = false) (strip s) = filter (λ c, isspace c = false) s ∧
  filter (λ c, isspace c = false) (_slim s) = filter (λ c, isspace c = false) s.
Proof.
  split.
  - unfold strip. fold nonspace.
    by rewrite filter_nonspace_rstrip, filter_nonspace_lstrip.
  - rewrite _slim_squeeze. fold nonspace.
    by rewrite filter_nonspace_squeeze, filter_nonspace_lstrip.
Qed.

(** ** [StyleMap] *)

Lemma getitem_Ok {V} key (d : list (str * V)) x :
  StyleMap.getitem key d = Ok x → (key, x) ∈ d.
Proof.
  induction d as [|[k v] d IH]; simpl; [done|].
  case_decide as Hk.
  - intros [= ->]. subst. by left.
  - intros H. right. by apply IH.
Qed.

Lemma getitem_Raise {V} key (d : list (str * V)) e :
  StyleMap.getitem key d = Raise e → e = KeyError.
Proof.
  induction d as [|[k v] d IH]; simpl; [by intros [= <-]|].
  by case_decide.
Qed.

Lemma class_of_Raise a v e : StyleMap.class_of a v = Raise e → e = KeyError.
Proof.
  unfold StyleMap.class_of.
  destruct (StyleMap.getitem a StyleMap.attributes) as [group|e'] eqn:E; simpl.
  - apply getitem_Raise.
  - intros [= <-]. by apply getitem_Raise in E.
Qed.

Lemma class_of_Ok a v c :
  StyleMap.class_of a v = Ok c →
  ∃ group, (a, group) ∈ StyleMap.attributes ∧ (v, c) ∈ group.
Proof.
  unfold StyleMap.class_of.
  destruct (StyleMap.getitem a StyleMap.attributes) as [group|e'] eqn:E;
    simpl; [|done].
  intros H. exists group. split; by apply getitem_Ok.
Qed.

Lemma parsed_classes_Ok tuples classes :
  StyleMap.parsed_classes tuples = Ok classes ↔ Forall2 known_pair tuples classes.
Proof.
  revert classes. induction tuples as [|t tuples IH]; intros classes.
  - simpl. split; [intros [= <-]; constructor|by intros ->%Forall2_nil_inv_l].
  - split.
    + destruct t as [|a [|v [|x t]]]; simpl; try done.
      destruct (StyleMap.class_of a v) as [c|] eqn:Ec; simpl; [|done].
      destruct (StyleMap.parsed_classes tuples) as [cs|] eqn:Ecs; simpl; [|done].
      intros [= <-]. constructor; [by exists a, v|by apply IH].
    + intros (c & cs & (a & v & -> & Hc) & Hcs & ->)%Forall2_cons_inv_l.
      simpl. rewrite Hc. simpl. apply IH in Hcs. by rewrite Hcs.
Qed.

Lemma classify_Ok_parsed style r :
  StyleMap.classify style = Ok r →
  ∃ cs, StyleMap.parsed_classes (StyleMap.parse style) = Ok cs.
Proof.
  unfold StyleMap.classify, StyleMap.class_list.
  change (StyleMap.global_classes StyleMap._global)
    with (Ok [py "butt"; py "rounded"] : result (list str)).
  destruct (StyleMap.parsed_classes (StyleMap.parse style)) as [cs|]; [|done].
  intros _. by exists cs.
Qed.

(** X5.  [StyleMap.classify] returns exactly when every tuple of the parsed
    style is a property and a value of the vocabulary; the result is then
    the classes of the global defaults, [butt] and [rounded], followed by
    the class of each declaration in the order of the style, joined by
    single spaces. *)
Theorem StyleMap_classify_Ok (style r : str) :
  StyleMap.classify style = Ok r ↔
  ∃ classes,
    Forall2 known_pair (StyleMap.parse style) classes ∧
    r = join [space] ([py "butt"; py "rounded"] ++ classes).
Proof.
  unfold StyleMap.classify, StyleMap.class_list.
  change (StyleMap.global_classes StyleMap._global)
    with (Ok [py "butt"; py "rounded"] : result (list str)).
  cbn [mbind result_bind].
  destruct (StyleMap.parsed_classes (StyleMap.parse style)) as [cs|e] eqn:E.
  - apply parsed_classes_Ok in E. cbn [mbind result_bind]. split.
    + intros [= <-]. by exists cs.
    + intros (cs' & H & ->). do 2 f_equal.
      apply parsed_classes_Ok in E, H. congruence.
  - cbn [mbind result_bind]. split; [done|].
    intros (cs & H & _). apply parsed_classes_Ok in H. congruence.
Qed.

Lemma parsed_classes_first_bad good bad rest classes :
  Forall2 known_pair good classes →
  (∀ c, ¬ known_pair bad c) →
  StyleMap.parsed_classes (good ++ bad :: rest) =
    Raise (if decide (length bad = 2%nat) then KeyError else ValueError).
Proof.
  intros Hgood Hbad. induction Hgood as [|t c good classes (a & v & -> & Hc) _ IH].
  - simpl. destruct bad as [|a [|v [|x t]]]; simpl; try done.
    destruct (StyleMap.class_of a v) as [c|e] eqn:Ec; simpl.
    + destruct (Hbad c). by exists a, v.
    + by apply class_of_Raise in Ec as ->.
  - simpl. rewrite Hc. simpl. by rewrite IH.
Qed.

(** X6.  When the first tuple of the parsed style that is not a property
    and a value of the vocabulary has two components, [StyleMap.classify]
    raises [KeyError]; when it has another number of components, as for a
    declaration without a colon or with two, it raises [ValueError]. *)
Theorem StyleMap_classify_raises (style : str) good bad rest classes :
  StyleMap.parse style = good ++ bad :: rest →
  Forall2 known_pair good classes →
  (∀ c, ¬ known_pair bad c) →
  StyleMap.classify style =
    Raise (if decide (length bad = 2%nat) then KeyError else ValueError).
Proof.
  intros Hparse Hgood Hbad.
  unfold StyleMap.classify, StyleMap.class_list.
  change (StyleMap.global_classes StyleMap._global)
    with (Ok [py "butt"; py "rounded"] : result (list str)).
  cbn [mbind result_bind].
  by rewrite Hparse, (parsed_classes_first_bad good bad rest classes).
Qed.

(** X6, at a style whose second declaration names a property outside the
    vocabulary. *)
Lemma StyleMap_classify_raises_witness :
  StyleMap.classify (py "stroke:#1f77b4;opacity:1") = Raise KeyError.
Proof.
  apply (StyleMap_classify_raises (py "stroke:#1f77b4;opacity:1")
           [[py "stroke"; py "#1f77b4"]] [py "opacity"; py "1"] []
           [py "blue"]).
  - vm_compute. reflexivity.
  - constructor; [|constructor]. exists (py "stroke"), (py "#1f77b4").
    split; [reflexivity|vm_compute; reflexivity].
  - intros c (a & v & [= <- <-] & H). vm_compute in H. discriminate H.
Defined.

Lemma split_snoc sep (s : str) :
  split sep (s ++ [sep]) = split sep s ++ [[]].
Proof.
  induction s as [|c tl IH]; simpl.
  - by rewrite N.eqb_refl.
  - destruct (N.eqb c sep); [by rewrite IH|].
    rewrite IH. destruct (split sep tl) as [|w ws] eqn:E; [|done].
    by apply split_ne in E.
Qed.

(** X7.  A style string that ends with a semicolon is never classified:
    the empty declaration behind the semicolon cannot be unpacked. *)
Theorem StyleMap_classify_trailing_semicolon (style : str) :
  ∃ e, StyleMap.classify (style ++ [semicolon]) = Raise e.
Proof.
  destruct (StyleMap.classify (style ++ [semicolon])) as [r|e] eqn:E;
    [|by exists e].
  apply classify_Ok_parsed in E as (classes & H%parsed_classes_Ok).
  assert (Hparse : ∃ tuples, StyleMap.parse (style ++ [semicolon]) =
                             tuples ++ [[[]]]).
  { unfold StyleMap.parse.
    destruct (style ++ [semicolon]) as [|c tl] eqn:Es.
    - by apply app_eq_nil in Es as [_ ?].
    - rewrite <- Es, split_snoc, fmap_app. by eexists. }
  destruct Hparse as (tuples & Hparse). rewrite Hparse in H.
  apply Forall2_app_inv_l in H as (cs1 & cs2 & _ & H & _).
  apply Forall2_cons_inv_l in H as (c & cs & (a & v & [=] & _) & _).
Qed.

Lemma strip_split_colon (a v : str) :
  colon ∉ a → colon ∉ v →
  strip <$> split colon (a ++ [colon] ++ v) = [strip a; strip v].
Proof.
  intros Ha Hv. simpl. rewrite split_app_sep by done.
  by rewrite split_notin by done.
Qed.

(** X8.  Parsing gives back the declarations a style string was written
    from, each property and value stripped of surrounding whitespace, when
    no property and no value contains a colon or a semicolon. *)
Theorem StyleMap_parse_style_of (decls : list (str * str)) :
  Forall (λ d, (semicolon ∉ d.1) ∧ (colon ∉ d.1) ∧
               (semicolon ∉ d.2) ∧ (colon ∉ d.2)) decls →
  StyleMap.parse (style_of decls) = (λ d, [strip d.1; strip d.2]) <$> decls.
Proof.
  intros H. unfold StyleMap.parse, style_of.
  destruct decls as [|d decls]; [done|].
  destruct (join [semicolon] (declaration <$> d :: decls)) as [|c tl] eqn:E.
  { exfalso. destruct d as [a v]. destruct decls; simpl in E.
    - unfold declaration in E. simpl in E.
      by apply app_eq_nil in E as [_ ?].
    - unfold declaration in E. simpl in E.
      apply app_eq_nil in E as [E _]. by apply app_eq_nil in E as [_ ?]. }
  rewrite <- E. rewrite split_join.
  - rewrite <- list_fmap_compose. apply Forall_fmap_ext_1.
    eapply Forall_impl; [exact H|]. intros [a v] (_ & Ha & _ & Hv). simpl.
    by apply strip_split_colon.
  - done.
  - intros t (d' & -> & Hd')%list_elem_of_fmap.
    rewrite Forall_forall in H. destruct (H d' Hd') as (H1 & _ & H2 & _).
    unfold declaration. rewrite !elem_of_app, list_elem_of_singleton.
    intros [?|[?|?]]; done.
Qed.

(** X8, at a style with blanks around its properties and values. *)
Lemma StyleMap_parse_style_of_witness :
  StyleMap.parse (style_of [(py " stroke ", py " #1f77b4"); (py "font", py "10px 'sans-serif' ")]) =
    [[py "stroke"; py "#1f77b4"]; [py "font"; py "10px 'sans-serif'"]].
Proof.
  rewrite StyleMap_parse_style_of; [reflexivity|].
  repeat constructor; simpl; intros H; vm_compute in H;
    repeat (apply elem_of_cons in H as [H|H]; [discriminate H|]);
    by apply elem_of_nil in H.
Defined.

Lemma class_of_vocabulary a v c :
  StyleMap.class_of a v = Ok c → (a, v, c) ∈ vocabulary.
Proof.
  intros (group & Ha & Hv)%class_of_Ok. unfold vocabulary.
  apply list_elem_of_bind. exists (a, group). split; [|done].
  apply list_elem_of_bind. exists (v, c). split; [|done].
  by apply list_elem_of_singleton.
Qed.

Lemma NoDup_fmap_eq {A B} (f : A → B) (l : list A) x y :
  NoDup (f <$> l) → x ∈ l → y ∈ l → f x = f y → x = y.
Proof.
  induction l as [|a l IH]; [by intros _ ?%elem_of_nil|].
  rewrite fmap_cons, NoDup_cons. intros [Ha Hl] Hx Hy Hf.
  apply elem_of_cons in Hx as [->|Hx], Hy as [->|Hy]; try done.
  - destruct Ha. rewrite Hf. by apply list_elem_of_fmap_2.
  - destruct Ha. rewrite <- Hf. by apply list_elem_of_fmap_2.
  - by apply IH.
Qed.

Lemma vocabulary_classes_NoDup : NoDup (snd <$> vocabulary).
Proof. apply (bool_decide_unpack _). vm_compute. reflexivity. Qed.

(** X9.  No class name stands for two declarations: a class that the
    vocabulary gives to a property and a value is given to no other property
    and to no other value. *)
Theorem StyleMap_class_unique (a v a' v' c : str) :
  StyleMap.class_of a v = Ok c → StyleMap.class_of a' v' = Ok c →
  a = a' ∧ v = v'.
Proof.
  intros H%class_of_vocabulary H'%class_of_vocabulary.
  assert (E : (a, v, c) = (a', v', c)).
  { by apply (NoDup_fmap_eq snd vocabulary _ _ vocabulary_classes_NoDup). }
  by injection E.
Qed.

(** X9, at the class [butt]. *)
Lemma StyleMap_class_unique_witness :
  StyleMap.class_of (py "stroke-linecap") (py "butt") = Ok (py "butt") ∧
  (py "stroke-linecap" = py "stroke-linecap" ∧ py "butt" = py "butt").
Proof.
  assert (H : StyleMap.class_of (py "stroke-linecap") (py "butt") = Ok (py "butt"))
    by (vm_compute; reflexivity).
  split; [exact H|].
  exact (StyleMap_class_unique _ _ _ _ _ H H).
Defined.

Lemma concat_elem_of_infix (l : list str) (x : str) :
  x ∈ l → ∃ pre post, concat l = pre ++ x ++ post.
Proof.
  induction l as [|w l IH]; [by intros ?%elem_of_nil|].
  intros [->|Hx]%elem_of_cons; simpl.
  - by exists [], (concat l).
  - destruct (IH Hx) as (pre & post & ->). exists (w ++ pre), post.
    by rewrite <- app_assoc.
Qed.

(** X10.  The style sheet has a rule for every class [StyleMap.classify]
    can return: the text of [tostring] contains [.class { property: value; }]
    for each property and value of the vocabulary. *)
Theorem StyleMap_tostring_covers (a v c : str) :
  StyleMap.class_of a v = Ok c →
  ∃ pre post,
    StyleMap.tostring = pre ++ StyleMap.selector_rule c a v ++ post.
Proof.
  intros (group & Ha & Hv)%class_of_Ok.
  unfold StyleMap.tostring. rewrite join_nil_concat.
  apply concat_elem_of_infix. apply elem_of_app. left.
  apply list_elem_of_bind. exists (a, group). split; [|done].
  apply list_elem_of_bind. exists (v, c). split; [|done].
  by apply list_elem_of_singleton.
Qed.

(** X10, at the class of the first colour of the default cycle. *)
Lemma StyleMap_tostring_covers_witness :
  ∃ pre post,
    StyleMap.tostring = pre ++ py ".blue { stroke: #1f77b4; }" ++ post.
Proof.
  assert (H : StyleMap.class_of (py "stroke") (py "#1f77b4") = Ok (py "blue"))
    by (vm_compute; reflexivity).
  exact (StyleMap_tostring_covers _ _ _ H).
Defined.

(** ** [set_none] *)

Lemma merged_spec el attr_ value :
  StronglySorted str_le (merged el attr_ value) ∧
  NoDup (merged el attr_ value) ∧
  ∀ t, t ∈ merged el attr_ value ↔ t ≠ [] ∧ t ∈ pieces el attr_ value.
Proof. apply sorted_set_spec. Qed.

Lemma set_none_merged el attr_ value :
  SVG.set_none el attr_ value =
    match merged el attr_ value with
    | [] => el
    | _ :: _ => el_set el attr_ (join [space] (merged el attr_ value))
    end.
Proof.
  unfold SVG.set_none. fold (pieces el attr_ value). fold (merged el attr_ value).
  destruct (merged_spec el attr_ value) as (_ & _ & Hin).
  destruct (merged el attr_ value) as [|w rest] eqn:E; [done|].
  rewrite join_truthy; [done|done|].
  intros t [Ht _]%Hin. by destruct t.
Qed.

(** The merged tokens depend on the non-empty pieces only, not on their
    order or number. *)
Lemma merged_ext el attr_ value el' attr_' value' :
  (∀ t, t ≠ [] → t ∈ pieces el attr_ value ↔ t ∈ pieces el' attr_' value') →
  merged el attr_ value = merged el' attr_' value'.
Proof.
  intros H.
  destruct (merged_spec el attr_ value) as (S1 & N1 & I1).
  destruct (merged_spec el' attr_' value') as (S2 & N2 & I2).
  apply (StronglySorted_unique str_le); try done.
  apply NoDup_Permutation; try done.
  intros t. rewrite I1, I2. split; intros [Ht ?]; (split; [done|]); by apply H.
Qed.

Lemma split_app sep (x y : str) :
  split sep (x ++ sep :: y) = split sep x ++ split sep y.
Proof.
  induction x as [|c x IH]; simpl.
  - by rewrite N.eqb_refl.
  - destruct (N.eqb c sep); [by rewrite IH|].
    rewrite IH. destruct (split sep x) as [|w ws] eqn:E; [|done].
    by apply split_ne in E.
Qed.

Lemma pieces_after_set_none el attr_ v1 v2 t :
  t ≠ [] →
  t ∈ pieces (SVG.set_none el attr_ v1) attr_ v2 ↔
  t ∈ pieces el attr_ (v1 ++ [space] ++ v2).
Proof.
  intros Ht.
  assert (R : t ∈ pieces el attr_ (v1 ++ [space] ++ v2) ↔
              t ∈ pieces el attr_ v1 ∨ t ∈ split space v2).
  { unfold pieces. simpl. rewrite split_app, !elem_of_app. tauto. }
  assert (L : ∀ el', t ∈ pieces el' attr_ v2 ↔
                t ∈ split space (default [] (el_get el' attr_)) ∨
                t ∈ split space v2).
  { intros el'. unfold pieces. by rewrite elem_of_app. }
  rewrite R, L, set_none_merged.
  destruct (merged_spec el attr_ v1) as (_ & _ & Hin).
  destruct (merged el attr_ v1) as [|w rest] eqn:E.
  - assert (Hnot : t ∉ pieces el attr_ v1).
    { intros Hp. assert (Hnil : t ∈ []) by (by apply Hin).
      by apply elem_of_nil in Hnil. }
    assert (Hold : t ∈ split space (default [] (el_get el attr_)) →
                   t ∈ pieces el attr_ v1).
    { intros ?. unfold pieces. rewrite elem_of_app. by left. }
    tauto.
  - rewrite <- E in *. unfold el_get, el_set. simpl.
    rewrite lookup_insert_eq. simpl.
    rewrite split_join.
    + rewrite Hin. tauto.
    + by rewrite E.
    + intros t' [_ Ht']%Hin. unfold pieces in Ht'.
      apply elem_of_app in Ht' as [Ht'|Ht']; by apply split_no_sep in Ht'.
Qed.

Lemma el_set_el_set el attr_ v1 v2 :
  el_set (el_set el attr_ v1) attr_ v2 = el_set el attr_ v2.
Proof. unfold el_set. simpl. by rewrite insert_insert_eq. Qed.

(** Two calls of [set_none] in a row, by the tokens merged from the present
    value and the two new values. *)
Lemma set_none_set_none el attr_ v1 v2 :
  SVG.set_none (SVG.set_none el attr_ v1) attr_ v2 =
    match merged el attr_ (v1 ++ [space] ++ v2) with
    | [] => el
    | _ :: _ => el_set el attr_ (join [space] (merged el attr_ (v1 ++ [space] ++ v2)))
    end.
Proof.
  rewrite (set_none_merged (SVG.set_none el attr_ v1)).
  rewrite (merged_ext _ _ _ el attr_ (v1 ++ [space] ++ v2))
    by (intros t Ht; by apply pieces_after_set_none).
  destruct (merged el attr_ (v1 ++ [space] ++ v2)) as [|w rest] eqn:E.
  - rewrite set_none_merged.
    destruct (merged el attr_ v1) as [|w rest] eqn:E1; [done|].
    exfalso.
    destruct (merged_spec el attr_ v1) as (_ & _ & H1).
    destruct (merged_spec el attr_ (v1 ++ [space] ++ v2)) as (_ & _ & H2).
    assert (Hw : w ∈ merged el attr_ v1) by (rewrite E1; by left).
    apply H1 in Hw as [Hw1 Hw2].
    assert (Hin : w ∈ merged el attr_ (v1 ++ [space] ++ v2)).
    { apply H2. split; [done|]. unfold pieces in *. simpl. rewrite split_app.
      rewrite !elem_of_app in *. tauto. }
    rewrite E in Hin. by apply elem_of_nil in Hin.
  - rewrite set_none_merged.
    destruct (merged el attr_ v1); [done|]. apply el_set_el_set.
Qed.

(** X11.  Adding classes in two steps gives what adding them at once
    gives. *)
Theorem set_none_twice (el : Label) (attr_ v1 v2 : str) :
  SVG.set_none (SVG.set_none el attr_ v1) attr_ v2 =
  SVG.set_none el attr_ (v1 ++ [space] ++ v2).
Proof. by rewrite set_none_set_none, set_none_merged. Qed.

(** X12.  The order in which classes are added does not matter. *)
Theorem set_none_comm (el : Label) (attr_ v1 v2 : str) :
  SVG.set_none (SVG.set_none el attr_ v1) attr_ v2 =
  SVG.set_none (SVG.set_none el attr_ v2) attr_ v1.
Proof.
  rewrite !set_none_set_none.
  rewrite (merged_ext el attr_ (v1 ++ [space] ++ v2) el attr_ (v2 ++ [space] ++ v1));
    [done|].
  intros t _. unfold pieces. simpl. rewrite !split_app, !elem_of_app. tauto.
Qed.

(** X13.  Adding the same classes again changes nothing. *)
Theorem set_none_idemp (el : Label) (attr_ value : str) :
  SVG.set_none (SVG.set_none el attr_ value) attr_ value =
  SVG.set_none el attr_ value.
Proof.
  rewrite set_none_set_none, set_none_merged.
  rewrite (merged_ext el attr_ (value ++ [space] ++ value) el attr_ value);
    [done|].
  intros t _. unfold pieces. simpl. rewrite !split_app, !elem_of_app. tauto.
Qed.

(** Every non-empty piece is a token of the value [set_none] leaves. *)
Lemma set_none_tokens el attr_ value t :
  t ≠ [] → t ∈ pieces el attr_ value →
  t ∈ split space (default [] (el_get (SVG.set_none el attr_ value) attr_)).
Proof.
  intros Ht Hp. rewrite set_none_merged.
  destruct (merged_spec el attr_ value) as (_ & _ & Hin).
  destruct (merged el attr_ value) as [|w rest] eqn:E.
  - assert (Hnil : t ∈ []) by (by apply Hin). by apply elem_of_nil in Hnil.
  - rewrite <- E in *. unfold el_get, el_set. simpl.
    rewrite lookup_insert_eq. simpl. rewrite split_join.
    + by apply Hin.
    + by rewrite E.
    + intros t' [_ Ht']%Hin. unfold pieces in Ht'.
      apply elem_of_app in Ht' as [Ht'|Ht']; by apply split_no_sep in Ht'.
Qed.

Lemma set_none_fields el attr_ value :
  tag (SVG.set_none el attr_ value) = tag el ∧
  text (SVG.set_none el attr_ value) = text el ∧
  tail (SVG.set_none el attr_ value) = tail el ∧
  ∀ key, key ≠ attr_ →
         attrib (SVG.set_none el attr_ value) !! key = attrib el !! key.
Proof.
  rewrite set_none_merged.
  destruct (merged el attr_ value) as [|w rest]; [done|].
  split_and!; try done. intros key Hkey. simpl. by rewrite lookup_insert_ne.
Qed.

(** X14.  [set_none] writes the one attribute it is given: the tag, the
    text, the tail and every other attribute of the element stay as they
    are, and no token of the attribute's value is lost. *)
Theorem set_none_frame (el : Label) (attr_ value : str) :
  tag (SVG.set_none el attr_ value) = tag el ∧
  text (SVG.set_none el attr_ value) = text el ∧
  tail (SVG.set_none el attr_ value) = tail el ∧
  (∀ key, key ≠ attr_ →
          el_get (SVG.set_none el attr_ value) key = el_get el key) ∧
  (∀ t, t ≠ [] → t ∈ split space (default [] (el_get el attr_)) →
        t ∈ split space (default [] (el_get (SVG.set_none el attr_ value) attr_))).
Proof.
  destruct (set_none_fields el attr_ value) as (H1 & H2 & H3 & H4).
  split_and!; try done.
  intros t Ht Hold. apply set_none_tokens; [done|].
  unfold pieces. rewrite elem_of_app. by left.
Qed.

(** X14, at an element with two classes and an identifier. *)
Lemma set_none_frame_witness :
  let el := element "path" [attr "class" "b a"; attr "id" "line1"] in
  el_get (SVG.set_none el (py "class") (py "text")) (py "id") = Some (py "line1") ∧
  py "b" ∈ split space
             (default [] (el_get (SVG.set_none el (py "class") (py "text"))
                                 (py "class"))).
Proof.
  intros el.
  destruct (set_none_frame el (py "class") (py "text")) as (_ & _ & _ & H1 & H2).
  split.
  - rewrite H1; [reflexivity|discriminate].
  - apply H2; [discriminate|]. vm_compute. left.
Defined.

(** ** Traversals and passes *)

(** X15.  With a predicate [[@key]] the traversal is in document order and
    starts at the root: it yields the elements of the tree that have the
    attribute, an element before its children. *)
Theorem iter_predicate_document_order (key : str) (root : Element) :
  SVG.iter (PAttr key) root =
    filter (λ p, is_Some (attr_at key root p)) (Element_iter root).
Proof.
  unfold SVG.iter. rewrite _iter_visits, visits_PAttr.
  apply list_filter_iff. intros p. unfold passes_at, attr_at, passes, el_get.
  destruct (label_at p root) as [l|]; simpl;
    [destruct (attrib l !! key) as [v|]|];
    split; intros H; try done; try (by destruct H); by eexists.
Qed.

(** The names of the attributes of every element stay as they are under
    [slim] and under [uid]. *)
Lemma rewrite_attr_is_Some key id l k :
  is_Some (attrib (rewrite_attr key id l) !! k) ↔ is_Some (attrib l !! k).
Proof.
  rewrite rewrite_attr_lookup. case_decide; [|done]. by rewrite fmap_is_Some.
Qed.

Lemma uid_tmap id root :
  SVG.uid id root =
    Ok (tmap (rewrite_attr (py "clip-path") id)
          (tmap (rewrite_attr (py "href") id)
             (tmap (rewrite_attr (py "id") id) root))).
Proof.
  unfold SVG.uid. rewrite uid_loop. simpl. rewrite uid_loop. simpl.
  apply uid_loop.
Qed.

(** X16.  [slim] and [uid] neither add nor remove an attribute: every
    element has the same attribute names after as before.  So a document
    without [style] attributes, as [classify] leaves it, still has none
    after these passes. *)
Theorem slim_uid_keep_attribute_names (id : str) (root : Element) :
  (∀ key p, is_Some (attr_at key (SVG.slim root) p) ↔
            is_Some (attr_at key root p)) ∧
  ∃ root', SVG.uid id root = Ok root' ∧
    ∀ key p, is_Some (attr_at key root' p) ↔ is_Some (attr_at key root p).
Proof.
  split.
  - intros key p. unfold attr_at. rewrite slim_tmap, label_at_tmap.
    destruct (label_at p root) as [l|]; [|done]. simpl.
    by rewrite lookup_fmap, fmap_is_Some.
  - eexists. split; [apply uid_tmap|].
    intros key p. unfold attr_at. rewrite !label_at_tmap.
    destruct (label_at p root) as [l|]; [|done]. simpl.
    by rewrite !rewrite_attr_is_Some.
Qed.

(** ** Invariants of the loops *)

Lemma option_Forall2_update (R : relation Label) `{!Reflexive R} p q root l l' :
  label_at p root = Some l → R l l' →
  option_Forall2 R (label_at q root) (label_at q (update_at (λ _, l') p root)).
Proof.
  intros Hl HR. rewrite label_at_update. case_decide as Hpq.
  - subst q. rewrite Hl. by constructor.
  - destruct (label_at q root); by constructor.
Qed.

(** A relation that every run of the body keeps between the element before
    and after holds between every element before and after the loop. *)
Lemma for_iter_from_rel (R : relation Label) `{!Reflexive R, !Transitive R}
    tag_ body els root r :
  (∀ l l', passes tag_ l = true → body l = Ok l' → R l l') →
  for_iter_from tag_ body els root = Ok r →
  ∀ q, option_Forall2 R (label_at q root) (label_at q r).
Proof.
  intros Hbody. revert root.
  induction els as [|p els IH]; intros root Hr q; cbn [for_iter_from] in Hr.
  - injection Hr as <-. destruct (label_at q root); by constructor.
  - destruct (label_at p root) as [l|] eqn:E; [|by apply IH].
    destruct (passes tag_ l) eqn:Hl; [|by apply IH].
    destruct (body l) as [l'|] eqn:Hb; [|done]. simpl in Hr.
    pose proof (option_Forall2_update R p q root l l' E (Hbody l l' Hl Hb)) as H1.
    pose proof (IH _ Hr q) as H2.
    destruct H1 as [x y Hxy|]; inversion H2; subst; constructor.
    by etrans.
Qed.

(** What the body establishes on an element the loop visits, and every
    later run of the body keeps, holds there after the loop. *)
Lemma for_iter_from_establish (R : relation Label) `{!Reflexive R, !Transitive R}
    (E : Label → Prop) tag_ body els root r q l :
  (∀ l l', passes tag_ l = true → body l = Ok l' → R l l' ∧ E l') →
  (∀ l l', E l → R l l' → E l') →
  for_iter_from tag_ body els root = Ok r →
  q ∈ els → label_at q root = Some l → passes tag_ l = true →
  ∃ l', label_at q r = Some l' ∧ E l'.
Proof.
  intros Hbody Hkeep. revert root l.
  induction els as [|p els IH]; intros root l Hr Hq Hl Hpass;
    [by apply elem_of_nil in Hq|].
  cbn [for_iter_from] in Hr.
  destruct (decide (p = q)) as [->|Hpq].
  - rewrite Hl, Hpass in Hr.
    destruct (body l) as [l1|] eqn:Hb; [|done]. simpl in Hr.
    destruct (Hbody l l1 Hpass Hb) as [_ HE].
    assert (HR : ∀ l l', passes tag_ l = true → body l = Ok l' → R l l').
    { intros a b Ha Hab. by apply (Hbody a b). }
    pose proof (for_iter_from_rel R _ _ _ _ _ HR Hr q) as H.
    rewrite label_at_update, decide_True, Hl in H by done. simpl in H.
    inversion H as [x y Hxy|]; subst. eexists. split; [done|].
    by apply (Hkeep l1).
  - apply elem_of_cons in Hq as [?|Hq]; [done|].
    destruct (label_at p root) as [lp|] eqn:Ep; [|by apply (IH root l)].
    destruct (passes tag_ lp); [|by apply (IH root l)].
    destruct (body lp) as [lp'|]; [|done]. simpl in Hr.
    apply (IH _ l Hr Hq); [|done].
    by rewrite label_at_update, decide_False.
Qed.

Lemma visits_tag tag_ root :
  is_tag tag_ → visits tag_ root = SVG._iter PStar root.
Proof.
  intros Htag. induction root as [l cs IH] using Element_ind'.
  rewrite Forall_lookup in IH. cbn [visits SVG._iter]. f_equal.
  - destruct tag_; [..|done]; cbn [iterfind children child_matches];
      by apply iconcat_ext.
  - destruct tag_; [..|done]; apply iconcat_ext; intros j c Hj;
      by rewrite (IH j c Hj).
Qed.

Lemma elem_of_visits_tag tag_ root p :
  is_tag tag_ → p ∈ visits tag_ root ↔ p ≠ [] ∧ is_Some (label_at p root).
Proof.
  intros Htag. rewrite visits_tag, elem_of__iter by done. simpl.
  split; intros [? H]; (split; [done|]).
  - destruct H as (l & -> & _). by eexists.
  - destruct H as [l ->]. by exists l.
Qed.

(** ** [classify] *)

(** A character does not occur in a literal. *)
Ltac notin_literal :=
  let H := fresh in
  intros H; vm_compute in H;
  repeat (apply elem_of_cons in H as [H|H]; [discriminate H|]);
  by apply elem_of_nil in H.

Global Instance classify_keeps_refl : Reflexive classify_keeps.
Proof. by intros l. Qed.

Global Instance classify_keeps_trans : Transitive classify_keeps.
Proof.
  intros a b c (H1 & H2 & H3) (H1' & H2' & H3'). split_and!; try congruence.
  intros key ??. by rewrite H3', H3.
Qed.

Global Instance classify_step_refl : Reflexive classify_step.
Proof. by intros l. Qed.

Global Instance classify_step_trans : Transitive classify_step.
Proof.
  intros a b c (H1 & H2 & H3) (H1' & H2' & H3'). split_and!.
  - by etrans.
  - congruence.
  - intros t ??. by apply H3', H3.
Qed.

Global Instance style_stays_refl : Reflexive style_stays.
Proof. by intros l. Qed.

Global Instance style_stays_trans : Transitive style_stays.
Proof.
  intros a b c (H1 & H2) (H1' & H2'). split; [congruence|].
  intros Ha. rewrite H2', H2; [done|done|by rewrite H1].
Qed.

Lemma set_none_step el value :
  classify_step el (SVG.set_none el (py "class") value).
Proof.
  destruct (set_none_fields el (py "class") value) as (H1 & H2 & H3 & H4).
  split_and!; try done.
  - split_and!; try done. intros key Hk _. by apply H4.
  - intros t Ht Hin. apply set_none_tokens; [done|].
    unfold pieces. rewrite elem_of_app. by left.
Qed.

Lemma pop_style_step el : classify_step el (el_pop el (py "style") []).2.
Proof.
  split_and!; try done.
  - split_and!; try done. intros key _ Hk. simpl. by rewrite lookup_delete_ne.
  - intros t _. unfold classes, el_get. simpl. by rewrite lookup_delete_ne.
Qed.

Lemma class_list_defaults style classes_ :
  StyleMap.class_list style = Ok classes_ →
  ∃ cs, classes_ = py "butt" :: py "rounded" :: cs.
Proof.
  unfold StyleMap.class_list.
  change (StyleMap.global_classes StyleMap._global)
    with (Ok [py "butt"; py "rounded"] : result (list str)).
  destruct (StyleMap.parsed_classes _) as [cs|]; [|done].
  intros [= <-]. by exists cs.
Qed.

Lemma join_cons_cons sep (w w' : str) ws :
  join sep (w :: w' :: ws) = w ++ sep ++ join sep (w' :: ws).
Proof. done. Qed.

Lemma StyleMap_classify_defaults style r :
  StyleMap.classify style = Ok r →
  py "butt" ∈ split space r ∧ py "rounded" ∈ split space r.
Proof.
  unfold StyleMap.classify.
  destruct (StyleMap.class_list style) as [classes_|] eqn:E; [|done].
  apply class_list_defaults in E as (cs & ->). intros H.
  cbv [mbind result_bind] in H.
  assert (Hr : r = join [space] (py "butt" :: py "rounded" :: cs)) by congruence.
  subst r. clear H. rewrite join_cons_cons. cbn [app].
  rewrite split_app_sep by notin_literal.
  split; [by left|]. right.
  destruct cs as [|c cs].
  - rewrite split_notin by notin_literal. by left.
  - rewrite join_cons_cons. cbn [app].
    rewrite split_app_sep by notin_literal. by left.
Qed.

Lemma classify_style_step el el' :
  SVG.classify_style el = Ok el' →
  classify_step el el' ∧ attrib el' !! py "style" = None ∧
  py "butt" ∈ classes el' ∧ py "rounded" ∈ classes el'.
Proof.
  unfold SVG.classify_style.
  set (el1 := (el_pop el (py "style") []).2).
  change (let '(style_, el) := el_pop el (py "style") [] in
          classes ← StyleMap.classify style_;
          Ok (SVG.set_none el (py "class") classes))
    with (classes ← StyleMap.classify (el_pop el (py "style") []).1;
          Ok (SVG.set_none el1 (py "class") classes)).
  destruct (StyleMap.classify _) as [r|] eqn:Er; [|done].
  intros H. cbv [mbind result_bind] in H.
  assert (Hel : el' = SVG.set_none el1 (py "class") r) by congruence.
  subst el'. clear H.
  destruct (StyleMap_classify_defaults _ _ Er) as [Hb Hr].
  split_and!.
  - etrans; [apply pop_style_step|apply set_none_step].
  - destruct (set_none_fields el1 (py "class") r) as (_ & _ & _ & H).
    rewrite H by discriminate. unfold el1. simpl. apply lookup_delete_eq.
  - apply set_none_tokens; [discriminate|].
    unfold pieces. rewrite elem_of_app. by right.
  - apply set_none_tokens; [discriminate|].
    unfold pieces. rewrite elem_of_app. by right.
Qed.

Lemma classify_font_step el el' :
  SVG.classify_font el = Ok el' →
  classify_step el el' ∧ attrib el' !! py "style" = attrib el !! py "style".
Proof.
  unfold SVG.classify_font. destruct (el_get el (py "id")) as [v|]; [|done].
  destruct (startswith _ v); intros H.
  - assert (Hel : el' = SVG.set_none el (py "class") (py "text")) by congruence.
    subst el'. split; [apply set_none_step|].
    destruct (set_none_fields el (py "class") (py "text")) as (_ & _ & _ & H').
    by rewrite H' by discriminate.
  - assert (Hel : el' = el) by congruence. by subst el'.
Qed.

Lemma classify_text_step el el' :
  SVG.classify_text el = Ok el' →
  classify_step el el' ∧ attrib el' !! py "style" = None ∧
  py "butt" ∈ classes el' ∧ py "rounded" ∈ classes el' ∧
  py "text" ∈ classes el'.
Proof.
  unfold SVG.classify_text.
  destruct (SVG.classify_style el) as [el1|] eqn:E1; [|done].
  intros H. cbv [mbind result_bind] in H.
  assert (Hel : el' = SVG.set_none el1 (py "class") (py "text")) by congruence.
  subst el'. clear H.
  destruct (classify_style_step _ _ E1) as (Hs & Hst & Hb & Hr).
  pose proof (set_none_step el1 (py "text")) as Hs2.
  destruct Hs2 as (Hk & Ht & Hgrow).
  split_and!.
  - etrans; [exact Hs|]. by split_and!.
  - destruct (set_none_fields el1 (py "class") (py "text")) as (_ & _ & _ & H').
    by rewrite H' by discriminate.
  - by apply Hgrow.
  - by apply Hgrow.
  - apply set_none_tokens; [discriminate|].
    unfold pieces. rewrite elem_of_app. right.
    rewrite split_notin by notin_literal. by left.
Qed.

(** The steps of a call of [classify] that returns. *)
Lemma classify_inv root root' :
  SVG.classify root = Ok root' →
  ∃ r1 r2 r3 r4 p,
    for_iter (PTag (py "path")) SVG.classify_style root = Ok r1 ∧
    for_iter (PTag (py "use")) SVG.classify_style r1 = Ok r2 ∧
    for_iter (PAttr (py "id")) SVG.classify_font r2 = Ok r3 ∧
    for_iter (PTag (py "text")) SVG.classify_text r3 = Ok r4 ∧
    length (SVG.iter (PAttr (py "style")) r4) = 0%nat ∧
    SVG.style r4 = Some p ∧
    root' = update_at (SVG.set_text StyleMap.tostring) p r4.
Proof.
  unfold SVG.classify. intros H.
  destruct (for_iter _ _ root) as [r1|] eqn:E1; simpl in H; [|done].
  destruct (for_iter _ _ r1) as [r2|] eqn:E2; simpl in H; [|done].
  destruct (for_iter _ _ r2) as [r3|] eqn:E3; simpl in H; [|done].
  destruct (for_iter _ _ r3) as [r4|] eqn:E4; simpl in H; [|done].
  case_decide as Hassert; [|done].
  destruct (SVG.style r4) as [p|] eqn:Ep; [|done].
  injection H as <-. by exists r1, r2, r3, r4, p.
Qed.

(** Every loop of [classify] makes steps only. *)
Lemma classify_loop_step tag_ body root r :
  (∀ l l', body l = Ok l' → classify_step l l') →
  for_iter tag_ body root = Ok r →
  ∀ q, option_Forall2 classify_step (label_at q root) (label_at q r).
Proof.
  intros Hbody H. unfold for_iter in H.
  apply (for_iter_from_rel classify_step tag_ body (visits tag_ root) root r);
    [|done].
  intros l l' _. apply Hbody.
Qed.

Lemma classify_loops_step root r1 r2 r3 r4 :
  for_iter (PTag (py "path")) SVG.classify_style root = Ok r1 →
  for_iter (PTag (py "use")) SVG.classify_style r1 = Ok r2 →
  for_iter (PAttr (py "id")) SVG.classify_font r2 = Ok r3 →
  for_iter (PTag (py "text")) SVG.classify_text r3 = Ok r4 →
  ∀ q,
    option_Forall2 classify_step (label_at q root) (label_at q r1) ∧
    option_Forall2 classify_step (label_at q r1) (label_at q r2) ∧
    option_Forall2 classify_step (label_at q r2) (label_at q r3) ∧
    option_Forall2 classify_step (label_at q r3) (label_at q r4).
Proof.
  intros H1 H2 H3 H4 q. split_and!.
  - apply (classify_loop_step _ _ _ _ (λ l l' H, proj1 (classify_style_step l l' H)) H1).
  - apply (classify_loop_step _ _ _ _ (λ l l' H, proj1 (classify_style_step l l' H)) H2).
  - apply (classify_loop_step _ _ _ _ (λ l l' H, proj1 (classify_font_step l l' H)) H3).
  - apply (classify_loop_step _ _ _ _ (λ l l' H, proj1 (classify_text_step l l' H)) H4).
Qed.

(** ** [self.style] *)

Lemma get_at_app p q root : get_at (p ++ q) root = get_at p root ≫= get_at q.
Proof.
  revert root. induction p as [|i p IH]; intros [l cs]; [done|].
  simpl. destruct (cs !! i) as [c|]; simpl; [apply IH|done].
Qed.

Lemma label_at_app p q root :
  label_at (p ++ q) root = get_at p root ≫= label_at q.
Proof.
  unfold label_at. rewrite get_at_app. by destruct (get_at p root).
Qed.

Lemma iconcat_same {A B} (f : nat → A → list B) i (l l' : list A) :
  (∀ j, option_Forall2 (λ c c', f (i + j)%nat c = f (i + j)%nat c')
          (l !! j) (l' !! j)) →
  iconcat f i l = iconcat f i l'.
Proof.
  revert i l'. induction l as [|a l IH]; intros i [|a' l'] H; simpl.
  - done.
  - specialize (H 0%nat). inversion H.
  - specialize (H 0%nat). inversion H.
  - f_equal.
    + specialize (H 0%nat). inversion H as [?? Haa|]; subst.
      by rewrite Nat.add_0_r in Haa.
    + apply IH. intros j. specialize (H (S j)). simpl in H.
      by rewrite Nat.add_succ_r in H.
Qed.

Lemma iterfind_same_tags name el el' :
  (∀ i, tag <$> label_at [i] el' = tag <$> label_at [i] el) →
  iterfind (PTag name) el' = iterfind (PTag name) el.
Proof.
  intros H. destruct el as [l cs], el' as [l' cs']. cbn [iterfind children].
  apply iconcat_same. intros j. specialize (H j).
  rewrite !label_at_cons in H.
  destruct (cs' !! j) as [c'|], (cs !! j) as [c|]; simpl in H; try done;
    constructor.
  cbn [child_matches]. injection H as H. by rewrite H.
Qed.

Lemma list_bind_same {A B} (f g : A → list B) (l : list A) :
  (∀ x, f x = g x) → l ≫= f = l ≫= g.
Proof.
  intros H. induction l as [|a l IH]; [done|].
  cbn [mbind list_bind]. by rewrite H, IH.
Qed.

(** [self.style] depends on the tags of the tree only. *)
Lemma find_defs_style_same_tags root r :
  (∀ q, tag <$> label_at q r = tag <$> label_at q root) →
  find_defs_style r = find_defs_style root.
Proof.
  intros H. unfold find_defs_style. f_equal.
  rewrite (iterfind_same_tags _ root r) by (intros i; apply H).
  apply list_bind_same. intros p.
  pose proof (H p) as Hp. unfold label_at in Hp.
  destruct (get_at p r) as [c'|] eqn:Er, (get_at p root) as [c|] eqn:Eroot;
    simpl in Hp; try done.
  f_equal. apply iterfind_same_tags. intros i.
  specialize (H (p ++ [i])). by rewrite !label_at_app, Er, Eroot in H.
Qed.

Lemma option_Forall2_trans {A} (R : relation A) `{!Transitive R} x y z :
  option_Forall2 R x y → option_Forall2 R y z → option_Forall2 R x z.
Proof.
  intros [a b Hab|] H; inversion H; subst; constructor. by etrans.
Qed.

Lemma option_Forall2_tag (R : relation Label) x y :
  (∀ l l', R l l' → tag l' = tag l) →
  option_Forall2 R x y → tag <$> y = tag <$> x.
Proof. intros HR [a b Hab|]; simpl; [|done]. by rewrite (HR a b). Qed.

(** From the tree [classify] is given to the tree it checks and writes the
    style sheet into, every element makes a step. *)
Lemma classify_steps root r1 r2 r3 r4 :
  for_iter (PTag (py "path")) SVG.classify_style root = Ok r1 →
  for_iter (PTag (py "use")) SVG.classify_style r1 = Ok r2 →
  for_iter (PAttr (py "id")) SVG.classify_font r2 = Ok r3 →
  for_iter (PTag (py "text")) SVG.classify_text r3 = Ok r4 →
  ∀ q, option_Forall2 classify_step (label_at q root) (label_at q r4).
Proof.
  intros H1 H2 H3 H4 q.
  destruct (classify_loops_step _ _ _ _ _ H1 H2 H3 H4 q) as (S1 & S2 & S3 & S4).
  eapply option_Forall2_trans; [apply _|exact S1|].
  eapply option_Forall2_trans; [apply _|exact S2|].
  eapply option_Forall2_trans; [apply _|exact S3|exact S4].
Qed.

Lemma classify_step_tag l l' : classify_step l l' → tag l' = tag l.
Proof. by intros ((? & _) & _). Qed.

(** X17.  When [classify] returns, the document has the same elements with
    the same tags, tails and attributes other than [class] and [style];
    the text of the style sheet element, the first [style] child of a
    [defs] child of the root, is the text of [StyleMap.tostring], and every
    other text is as before. *)
Theorem classify_keeps_rest (root root' : Element) :
  SVG.classify root = Ok root' →
  (∀ q, option_Forall2 classify_keeps (label_at q root) (label_at q root')) ∧
  ∃ p, SVG.style root = Some p ∧
       text <$> label_at p root' = Some (Some StyleMap.tostring) ∧
       ∀ q, q ≠ p → text <$> label_at q root' = text <$> label_at q root.
Proof.
  intros (r1 & r2 & r3 & r4 & p & H1 & H2 & H3 & H4 & _ & Hp & ->)%classify_inv.
  pose proof (classify_steps _ _ _ _ _ H1 H2 H3 H4) as Hsteps.
  assert (Hstyle : SVG.style root = Some p).
  { rewrite <- Hp. unfold SVG.style. symmetry.
    apply find_defs_style_same_tags. intros q.
    apply (option_Forall2_tag classify_step); [apply classify_step_tag|apply Hsteps]. }
  assert (Hvalid : is_Some (label_at p r4)).
  { unfold SVG.style, find_defs_style in Hp.
    apply head_Some_elem_of in Hp.
    apply list_elem_of_bind in Hp as (p1 & Hin & _).
    destruct (get_at p1 r4) as [c|] eqn:Ec; [|by apply elem_of_nil in Hin].
    apply list_elem_of_fmap in Hin as (p2 & -> & Hp2).
    apply elem_of_iterfind in Hp2 as (i & c' & -> & Hi & _).
    rewrite label_at_app, Ec. simpl. destruct c as [lc cc].
    rewrite label_at_cons. simpl in Hi. rewrite Hi. by eexists. }
  split; [|exists p; split_and!; [done|..]].
  - intros q. specialize (Hsteps q). rewrite label_at_update.
    destruct Hsteps as [l l' (Hk & _)|]; case_decide; simpl; constructor; done.
  - rewrite label_at_update, decide_True by done.
    destruct Hvalid as [l ->]. done.
  - intros q Hq. rewrite label_at_update, decide_False by done.
    specialize (Hsteps q).
    destruct Hsteps as [l l' (_ & Ht & _)|]; simpl; [|done]. by rewrite Ht.
Qed.

(** X17, at the example figure. *)
Lemma classify_keeps_rest_witness :
  SVG.classify figure = Ok classified_figure ∧
  ∃ p, SVG.style figure = Some p ∧
       text <$> label_at p classified_figure = Some (Some StyleMap.tostring).
Proof.
  assert (H : SVG.classify figure = Ok classified_figure)
    by (vm_compute; reflexivity).
  split; [exact H|].
  destruct (classify_keeps_rest figure classified_figure H) as (_ & p & Hp & Ht & _).
  exists p. split; [exact Hp|exact Ht].
Defined.

(** X18.  On a document without a [style] child of a [defs] child of the
    root [classify] does not return: it raises when it comes to write the
    style sheet, if not before. *)
Theorem classify_needs_style_element (root : Element) :
  SVG.style root = None → ∃ e, SVG.classify root = Raise e.
Proof.
  intros Hnone. destruct (SVG.classify root) as [root'|e] eqn:E; [|by exists e].
  apply classify_inv in E
    as (r1 & r2 & r3 & r4 & p & H1 & H2 & H3 & H4 & _ & Hp & _).
  pose proof (classify_steps _ _ _ _ _ H1 H2 H3 H4) as Hsteps.
  assert (Hstyle : SVG.style root = Some p); [|congruence].
  rewrite <- Hp. unfold SVG.style. symmetry.
  apply find_defs_style_same_tags. intros q.
  apply (option_Forall2_tag classify_step); [apply classify_step_tag|apply Hsteps].
Qed.

(** X18, at a document of groups and a path. *)
Lemma classify_needs_style_element_witness :
  SVG.style nested = None ∧ SVG.classify nested = Raise AttributeError.
Proof.
  assert (H : SVG.style nested = None) by (vm_compute; reflexivity).
  split; [exact H|].
  destruct (classify_needs_style_element nested H) as [e He].
  rewrite He. vm_compute in He. congruence.
Defined.

Lemma passes_tag name l : passes (PTag name) l = true ↔ tag l = name.
Proof. simpl. by rewrite bool_decide_eq_true. Qed.

(** A loop of [classify] over the elements with a tag establishes, on every
    such element below the root, what its body establishes and steps
    keep. *)
Lemma classify_loop_establish (E : Label → Prop) name body root r q l :
  (∀ l l', body l = Ok l' → classify_step l l' ∧ E l') →
  (∀ l l', E l → classify_step l l' → E l') →
  for_iter (PTag name) body root = Ok r →
  q ≠ [] → label_at q root = Some l → tag l = name →
  ∃ l', label_at q r = Some l' ∧ E l'.
Proof.
  intros Hbody Hkeep Hr Hq Hl Htag. unfold for_iter in Hr.
  apply (for_iter_from_establish classify_step E (PTag name) body
           (visits (PTag name) root) root r q l); try done.
  - intros a b _. apply Hbody.
  - apply elem_of_visits_tag; [done|]. split; [done|]. by rewrite Hl.
  - by apply passes_tag.
Qed.

Lemma classify_step_classes t l l' :
  t ≠ [] → classify_step l l' → t ∈ classes l → t ∈ classes l'.
Proof. intros Ht (_ & _ & H). by apply H. Qed.

Lemma option_Forall2_Some_l {A} (R : relation A) a y :
  option_Forall2 R (Some a) y → ∃ b, y = Some b ∧ R a b.
Proof. inversion 1; subst. by eexists. Qed.

(** X19.  When [classify] returns, every [path], [use] and [text] element
    below the root has the classes [butt] and [rounded] of the global
    defaults, and every [text] element the class [text]. *)
Theorem classify_adds_classes (root root' : Element) (q : path) (l : Label) :
  SVG.classify root = Ok root' →
  q ≠ [] → label_at q root = Some l → tag l ∈ styled_tags →
  ∃ l', label_at q root' = Some l' ∧
        py "butt" ∈ classes l' ∧ py "rounded" ∈ classes l' ∧
        (tag l = py "text" → py "text" ∈ classes l').
Proof.
  intros (r1 & r2 & r3 & r4 & p & H1 & H2 & H3 & H4 & _ & Hp & ->)%classify_inv
    Hq Hl Htag.
  destruct (classify_loops_step _ _ _ _ _ H1 H2 H3 H4 q) as (S1 & S2 & S3 & S4).
  set (E := λ l : Label, py "butt" ∈ classes l ∧ py "rounded" ∈ classes l).
  set (T := λ l : Label, E l ∧ py "text" ∈ classes l).
  assert (HE : ∀ a b, E a → classify_step a b → E b).
  { intros a b [? ?] Hs. split; by eapply classify_step_classes. }
  assert (HT : ∀ a b, T a → classify_step a b → T b).
  { intros a b [? ?] Hs. split; [by eapply HE|by eapply classify_step_classes]. }
  assert (Hstyle : ∀ a b, SVG.classify_style a = Ok b → classify_step a b ∧ E b).
  { intros a b (? & _ & ? & ?)%classify_style_step. by split. }
  assert (Htext : ∀ a b, SVG.classify_text a = Ok b → classify_step a b ∧ T b).
  { intros a b (? & _ & ? & ? & ?)%classify_text_step. by split. }
  assert (Hend : ∀ l4, label_at q r4 = Some l4 →
            ∃ l', label_at q (update_at (SVG.set_text StyleMap.tostring) p r4)
                    = Some l' ∧ classes l' = classes l4).
  { intros l4 H. rewrite label_at_update, H. case_decide; by eexists. }
  rewrite Hl in S1. apply option_Forall2_Some_l in S1 as (l1 & Hl1 & S1).
  rewrite Hl1 in S2. apply option_Forall2_Some_l in S2 as (l2 & Hl2 & S2).
  rewrite Hl2 in S3. apply option_Forall2_Some_l in S3 as (l3 & Hl3 & S3).
  rewrite Hl3 in S4. apply option_Forall2_Some_l in S4 as (l4 & Hl4 & S4).
  destruct (Hend l4 Hl4) as (l' & Hl' & Hc). exists l'. split; [done|].
  unfold styled_tags in Htag.
  apply elem_of_cons in Htag as [Htag|Htag];
    [|apply elem_of_cons in Htag as [Htag|Htag];
      [|apply list_elem_of_singleton in Htag]].
  - destruct (classify_loop_establish E _ _ _ _ q l Hstyle HE H1 Hq Hl Htag)
      as (l1' & Hl1' & HE1).
    assert (l1' = l1) as -> by congruence.
    assert (HE4 : E l4) by (eapply HE; [eapply HE; [eapply HE|]|]; done).
    destruct HE4. unfold classes in *. rewrite Hc. split_and!; try done.
    rewrite Htag. discriminate.
  - assert (Htag1 : tag l1 = py "use")
      by (by rewrite (classify_step_tag _ _ S1)).
    destruct (classify_loop_establish E _ _ _ _ q l1 Hstyle HE H2 Hq Hl1 Htag1)
      as (l2' & Hl2' & HE2).
    assert (l2' = l2) as -> by congruence.
    assert (HE4 : E l4) by (eapply HE; [eapply HE|]; done).
    destruct HE4. unfold classes in *. rewrite Hc. split_and!; try done.
    rewrite Htag. discriminate.
  - assert (Htag3 : tag l3 = py "text").
    { by rewrite (classify_step_tag _ _ S3), (classify_step_tag _ _ S2),
        (classify_step_tag _ _ S1). }
    destruct (classify_loop_establish T _ _ _ _ q l3 Htext HT H4 Hq Hl3 Htag3)
      as (l4' & Hl4' & HT4).
    assert (l4' = l4) as -> by congruence.
    destruct HT4 as [[? ?] ?]. unfold classes in *. rewrite Hc. by split_and!.
Qed.

(** X19, at the path of the example figure. *)
Lemma classify_adds_classes_witness :
  ∃ l', label_at [1; 0]%nat classified_figure = Some l' ∧
        py "butt" ∈ classes l' ∧ py "rounded" ∈ classes l'.
Proof.
  assert (H : SVG.classify figure = Ok classified_figure)
    by (vm_compute; reflexivity).
  assert (Hl : ∃ l, label_at [1; 0]%nat figure = Some l ∧ tag l = py "path").
  { eexists. split; reflexivity. }
  destruct Hl as (l & Hl & Htag).
  assert (Hq : [1; 0]%nat ≠ ([] : path)) by discriminate.
  assert (Hin : tag l ∈ styled_tags) by (rewrite Htag; left).
  destruct (classify_adds_classes figure classified_figure _ l H Hq Hl Hin)
    as (l' & Hl' & Hb & Hr & _).
  exists l'. split_and!; [exact Hl'|exact Hb|exact Hr].
Defined.

Lemma classify_loop_style_stays tag_ body root r :
  (∀ l l', passes tag_ l = true → body l = Ok l' → style_stays l l') →
  for_iter tag_ body root = Ok r →
  ∀ q, option_Forall2 style_stays (label_at q root) (label_at q r).
Proof.
  intros Hbody H. unfold for_iter in H.
  by apply (for_iter_from_rel style_stays tag_ body (visits tag_ root) root r).
Qed.

Lemma style_stays_tag_loop name body l l' :
  name ∈ styled_tags →
  (∀ l l', body l = Ok l' → classify_step l l') →
  passes (PTag name) l = true → body l = Ok l' → style_stays l l'.
Proof.
  intros Hname Hbody Hpass%passes_tag Hb. split.
  - by apply classify_step_tag, Hbody.
  - intros Hnot. destruct Hnot. by rewrite Hpass.
Qed.

Lemma styled_tags_elem :
  py "path" ∈ styled_tags ∧ py "use" ∈ styled_tags ∧ py "text" ∈ styled_tags.
Proof.
  unfold styled_tags. split_and!; [by left|by right; left|by right; right; left].
Qed.

(** X20.  An inline style on an element that is not a [path], [use] or
    [text] element is never taken: on a document with such an element
    [classify] does not return. *)
Theorem classify_rejects_other_styles (root : Element) (q : path) (l : Label) :
  label_at q root = Some l → is_Some (attrib l !! py "style") →
  tag l ∉ styled_tags →
  ∃ e, SVG.classify root = Raise e.
Proof.
  intros Hl Hstyle Htag.
  destruct (SVG.classify root) as [root'|e] eqn:E; [|by exists e].
  exfalso.
  apply classify_inv in E
    as (r1 & r2 & r3 & r4 & p & H1 & H2 & H3 & H4 & Hassert & _ & _).
  assert (S1 := classify_loop_style_stays _ _ _ _
    (λ a b, style_stays_tag_loop (py "path") _ a b (proj1 styled_tags_elem)
       (λ a b H, proj1 (classify_style_step a b H))) H1 q).
  assert (S2 := classify_loop_style_stays _ _ _ _
    (λ a b, style_stays_tag_loop (py "use") _ a b (proj1 (proj2 styled_tags_elem))
       (λ a b H, proj1 (classify_style_step a b H))) H2 q).
  assert (S3 := classify_loop_style_stays _ _ _ _
    (λ a b _ H, conj (classify_step_tag a b (proj1 (classify_font_step a b H)))
                     (λ _, proj2 (classify_font_step a b H))) H3 q).
  assert (S4 := classify_loop_style_stays _ _ _ _
    (λ a b, style_stays_tag_loop (py "text") _ a b (proj2 (proj2 styled_tags_elem))
       (λ a b H, proj1 (classify_text_step a b H))) H4 q).
  assert (S : option_Forall2 style_stays (label_at q root) (label_at q r4)).
  { eapply option_Forall2_trans; [apply _|exact S1|].
    eapply option_Forall2_trans; [apply _|exact S2|].
    eapply option_Forall2_trans; [apply _|exact S3|exact S4]. }
  rewrite Hl in S. apply option_Forall2_Some_l in S as (l4 & Hl4 & _ & Hs).
  pose proof (no_match_no_attribute _ r4 Hassert q l4 Hl4) as Hnone.
  rewrite (Hs Htag) in Hnone. rewrite Hnone in Hstyle. by destruct Hstyle.
Qed.

(** X20, at a document whose inline style sits on a group: the assertion
    fails. *)
Lemma classify_rejects_other_styles_witness :
  SVG.classify styled_group = Raise AssertionError.
Proof.
  assert (Hl : ∃ l, label_at [1]%nat styled_group = Some l ∧
                    attrib l !! py "style" = Some (py "stroke:#1f77b4") ∧
                    tag l = py "g").
  { eexists. split_and!; reflexivity. }
  destruct Hl as (l & Hl & Hs & Htag).
  assert (Hnot : tag l ∉ styled_tags).
  { rewrite Htag. intros H. vm_compute in H.
    repeat (apply elem_of_cons in H as [H|H]; [discriminate H|]).
    by apply elem_of_nil in H. }
  destruct (classify_rejects_other_styles styled_group [1]%nat l Hl
              (ex_intro _ _ Hs) Hnot) as [e He].
  rewrite He. vm_compute in He. congruence.
Defined.

(** ** [uid] on a document *)

Lemma uid_attr_at id root root' key p :
  SVG.uid id root = Ok root' →
  key ∈ [py "id"; py "href"; py "clip-path"] →
  attr_at key root' p = (λ v, SVG.insert v id) <$> attr_at key root p.
Proof.
  rewrite uid_tmap. intros [= <-] Hkey. unfold attr_at.
  rewrite !label_at_tmap. destruct (label_at p root) as [l|]; [|done].
  simpl. rewrite !rewrite_attr_lookup.
  apply elem_of_cons in Hkey as [->|Hkey];
    [|apply elem_of_cons in Hkey as [->|Hkey];
      [|apply list_elem_of_singleton in Hkey as ->]].
  all: by rewrite ?decide_False by (by vm_compute).
Qed.

(** X21.  [uid] keeps references pointing at what they pointed at: when an
    element declares an identifier without ['#'], the fragment reference
    [#identifier] in an [href] and the reference [url(#identifier)] in a
    [clip-path] anywhere in the document are rewritten to references to the
    rewritten identifier. *)
Theorem uid_keeps_references (id : str) (root root' : Element) (p q : path)
    (s : str) :
  SVG.uid id root = Ok root' →
  sharp_sign ∉ s →
  attr_at (py "id") root p = Some s →
  attr_at (py "id") root' p = Some (SVG.insert s id) ∧
  (attr_at (py "href") root q = Some (py "#" ++ s) →
   attr_at (py "href") root' q = Some (py "#" ++ SVG.insert s id)) ∧
  (attr_at (py "clip-path") root q = Some (py "url(#" ++ s ++ py ")") →
   attr_at (py "clip-path") root' q =
     Some (py "url(#" ++ SVG.insert s id ++ py ")")).
Proof.
  intros Huid Hs Hid. split_and!.
  - rewrite (uid_attr_at id root root') by (done || by left). by rewrite Hid.
  - intros Hhref.
    rewrite (uid_attr_at id root root') by (done || by right; left).
    rewrite Hhref. simpl. f_equal.
    pose proof (insert_after_sharp [] s [] id) as H.
    rewrite !app_nil_r in H. apply H; try done; apply not_elem_of_nil.
  - intros Hclip.
    rewrite (uid_attr_at id root root') by (done || by right; right; left).
    rewrite Hclip. simpl. f_equal.
    apply (insert_after_sharp (py "url(") s (py ")") id); try done.
    all: by intros [[=]|?%elem_of_nil]%elem_of_cons.
Qed.

(** X21, on a document whose references point at declared identifiers: the
    clip path [p1] and the path that uses it, the marker [m_1] and the [use]
    element that refers to it. *)
Lemma uid_keeps_references_witness :
  ∃ root', SVG.uid (py "u") linked = Ok root' ∧
    attr_at (py "id") linked [0; 0]%nat = Some (py "p1") ∧
    attr_at (py "clip-path") linked [1; 0]%nat = Some (py "url(#p1)") ∧
    attr_at (py "id") root' [0; 0]%nat = Some (py "u-p1") ∧
    attr_at (py "clip-path") root' [1; 0]%nat = Some (py "url(#u-p1)") ∧
    attr_at (py "id") linked [0; 1]%nat = Some (py "m_1") ∧
    attr_at (py "href") linked [1; 1]%nat = Some (py "#m_1") ∧
    attr_at (py "id") root' [0; 1]%nat = Some (py "m-u-1") ∧
    attr_at (py "href") root' [1; 1]%nat = Some (py "#m-u-1").
Proof.
  destruct (SVG.uid (py "u") linked) as [root'|e] eqn:E;
    [|by rewrite uid_tmap in E].
  exists root'.
  assert (Hp : sharp_sign ∉ py "p1").
  { intros H. vm_compute in H.
    repeat (apply elem_of_cons in H as [H|H]; [discriminate H|]).
    by apply elem_of_nil in H. }
  assert (Hm : sharp_sign ∉ py "m_1").
  { intros H. vm_compute in H.
    repeat (apply elem_of_cons in H as [H|H]; [discriminate H|]).
    by apply elem_of_nil in H. }
  assert (Hidp : attr_at (py "id") linked [0; 0]%nat = Some (py "p1"))
    by (vm_compute; reflexivity).
  assert (Hclip : attr_at (py "clip-path") linked [1; 0]%nat =
                  Some (py "url(#" ++ py "p1" ++ py ")"))
    by (vm_compute; reflexivity).
  assert (Hidm : attr_at (py "id") linked [0; 1]%nat = Some (py "m_1"))
    by (vm_compute; reflexivity).
  assert (Hhref : attr_at (py "href") linked [1; 1]%nat =
                  Some (py "#" ++ py "m_1"))
    by (vm_compute; reflexivity).
  destruct (uid_keeps_references (py "u") linked root' [0; 0]%nat [1; 0]%nat
              (py "p1") E Hp Hidp) as (Hp1 & _ & Hp3).
  destruct (uid_keeps_references (py "u") linked root' [0; 1]%nat [1; 1]%nat
              (py "m_1") E Hm Hidm) as (Hm1 & Hm2 & _).
  split; [reflexivity|].
  split; [exact Hidp|]. split; [exact Hclip|].
  split; [exact Hp1|]. split; [exact (Hp3 Hclip)|].
  split; [exact Hidm|]. split; [exact Hhref|].
  split; [exact Hm1|exact (Hm2 Hhref)].
Defined.

(** X22.  [uid] merges no two identifiers of a document that differ by more
    than underscores standing for hyphens. *)
Theorem uid_keeps_ids_distinct (id : str) (root root' : Element) (p q : path)
    (s1 s2 : str) :
  SVG.uid id root = Ok root' →
  attr_at (py "id") root p = Some s1 →
  attr_at (py "id") root q = Some s2 →
  replace underscore hyphen s1 ≠ replace underscore hyphen s2 →
  attr_at (py "id") root' p ≠ attr_at (py "id") root' q.
Proof.
  intros Huid H1 H2 Hne.
  rewrite !(uid_attr_at id root root') by (done || by left).
  rewrite H1, H2. simpl. intros [= E]. by apply Hne, (insert_same_result _ _ id).
Qed.

(** X22, at the group and the path of the example figure. *)
Lemma uid_keeps_ids_distinct_witness :
  ∃ root', SVG.uid (py "u") figure = Ok root' ∧
    attr_at (py "id") root' [1]%nat ≠ attr_at (py "id") root' [1; 0]%nat.
Proof.
  destruct (SVG.uid (py "u") figure) as [root'|e] eqn:E;
    [|by rewrite uid_tmap in E].
  exists root'. split; [done|].
  apply (uid_keeps_ids_distinct (py "u") figure root' [1]%nat [1; 0]%nat
           (py "figure_1") (py "line1") E).
  - vm_compute. reflexivity.
  - vm_compute. reflexivity.
  - vm_compute. discriminate.
Defined.
